(** * Tolerant JSON extraction, schema validation and form rendering

    A shallow embedding of the four demonstration scripts
    ([checkCompliance], [extractCook], [generateUI] with [convertToHTML],
    and [extractStructuredData]) together with the JavaScript built-ins and
    the zod combinators they call.

    Conventions.
    - A JavaScript string is the list of its UTF-16 code units
      ([jsstring]); indices are [Z] because [indexOf] answers [-1].
    - A JavaScript object read as a dictionary is a [gmap] from keys to
      values, so two objects are equal when they have the same keys with
      equal values.
    - [console.*] output and the calls made to the generation endpoint,
      to [JSON.parse] and to [fs.writeFileSync] are recorded, in program
      order, in a trace.  What the endpoint and the file system answer
      are parameters. *)

From stdpp Require Import gmap list strings.
From Stdlib Require Import ZArith Lia Ascii.

#[local] Set Warnings "-register-all".
#[local] Open Scope Z_scope.

(** ** JavaScript strings *)

Module JsString.

Definition code_unit := N.
Definition jsstring := list N.

(** An ASCII literal of the source as a JavaScript string. *)
Fixpoint js (s : string) : jsstring :=
  match s with
  | EmptyString => []
  | String a r => N_of_ascii a :: js r
  end.

Definition dq : jsstring := [34%N].          (* the double quote *)
Definition nl : jsstring := [10%N].          (* \n *)
Definition lbrace : code_unit := 123%N.      (* '{' *)
Definition rbrace : code_unit := 125%N.      (* '}' *)

Definition jseqb (a b : jsstring) : bool := bool_decide (a = b).

(** [s.indexOf(c)] for a one-unit needle. *)
Fixpoint indexOf_from (s : jsstring) (c : code_unit) (i : Z) : Z :=
  match s with
  | [] => -1
  | x :: r => if N.eqb x c then i else indexOf_from r c (i + 1)
  end.

Definition indexOf (s : jsstring) (c : code_unit) : Z := indexOf_from s c 0.

(** [s.lastIndexOf(c)] for a one-unit needle. *)
Fixpoint lastIndexOf_from (s : jsstring) (c : code_unit) (i found : Z) : Z :=
  match s with
  | [] => found
  | x :: r => lastIndexOf_from r c (i + 1) (if N.eqb x c then i else found)
  end.

Definition lastIndexOf (s : jsstring) (c : code_unit) : Z :=
  lastIndexOf_from s c 0 (-1).

(** [s.substring(a, b)]: both bounds are clamped to [0, length] and
    swapped when they come in the wrong order. *)
Definition substring (s : jsstring) (a b : Z) : jsstring :=
  let len := Z.of_nat (length s) in
  let a' := Z.min (Z.max a 0) len in
  let b' := Z.min (Z.max b 0) len in
  let from := Z.min a' b' in
  let to := Z.max a' b' in
  take (Z.to_nat (to - from)) (drop (Z.to_nat from) s).

(** WhiteSpace and LineTerminator of ECMAScript: what [trim] strips and
    what [\s] matches. *)
Definition isWhiteSpace (c : code_unit) : bool :=
  (N.eqb c 9 || N.eqb c 10 || N.eqb c 11 || N.eqb c 12 || N.eqb c 13
   || N.eqb c 32 || N.eqb c 160 || N.eqb c 5760
   || (N.leb 8192 c && N.leb c 8202)
   || N.eqb c 8232 || N.eqb c 8233 || N.eqb c 8239 || N.eqb c 8287
   || N.eqb c 12288 || N.eqb c 65279)%bool.

Fixpoint trimStart (s : jsstring) : jsstring :=
  match s with
  | [] => []
  | x :: r => if isWhiteSpace x then trimStart r else s
  end.

Definition trimEnd (s : jsstring) : jsstring := rev (trimStart (rev s)).

Definition trim (s : jsstring) : jsstring := trimEnd (trimStart s).

(** [s.replace(/\s+/g, rep)]: every maximal run of white space becomes
    one copy of [rep].  [in_run] says that the previous unit belonged to
    a run that has already been replaced. *)
Fixpoint replaceWhiteSpaceRuns_from (in_run : bool) (s rep : jsstring)
  : jsstring :=
  match s with
  | [] => []
  | x :: r =>
      if isWhiteSpace x
      then (if in_run then [] else rep) ++ replaceWhiteSpaceRuns_from true r rep
      else x :: replaceWhiteSpaceRuns_from false r rep
  end.

Definition replaceWhiteSpaceRuns (s rep : jsstring) : jsstring :=
  replaceWhiteSpaceRuns_from false s rep.

Fixpoint startsWith (s p : jsstring) : bool :=
  match p, s with
  | [], _ => true
  | _ :: _, [] => false
  | y :: p', x :: s' => N.eqb x y && startsWith s' p'
  end.

(** [s.replace(pat, rep)] with a string pattern: only the first
    occurrence is replaced. *)
Fixpoint replaceFirst (s pat rep : jsstring) : jsstring :=
  if startsWith s pat then rep ++ drop (length pat) s
  else match s with
       | [] => []
       | x :: r => x :: replaceFirst r pat rep
       end.

(** JavaScript truthiness of a string-or-undefined. *)
Definition truthy (o : option jsstring) : bool :=
  match o with
  | Some (_ :: _) => true
  | _ => false
  end.

End JsString.
Import JsString.

(** ** JavaScript values and [JSON.parse] *)

Module Json.

(** The values the scripts handle.  A number is kept as the text of its
    literal: none of the four schemas has a numeric field, so a number
    is only ever rejected or passed over. *)
Inductive jsvalue :=
| VUndef
| VNull
| VBool (b : bool)
| VNum (literal : jsstring)
| VStr (s : jsstring)
| VArr (items : list jsvalue)
| VObj (props : gmap jsstring jsvalue).

(** Property read [o[k]]: an absent key reads as [undefined]. *)
Definition get (props : gmap jsstring jsvalue) (k : jsstring) : jsvalue :=
  default VUndef (props !! k).

(** [k in o]. *)
Definition has (props : gmap jsstring jsvalue) (k : jsstring) : bool :=
  bool_decide (is_Some (props !! k)).

(** Truthiness, as tested by [if (x)].  The scripts only test what their
    extraction function returned, [null] or an object; a number literal
    is read as zero when its mantissa has no non-zero digit. *)
Fixpoint mantissa_is_zero (literal : jsstring) : bool :=
  match literal with
  | [] => true
  | c :: r =>
      if (N.eqb c 101 || N.eqb c 69)%bool then true
      else if (N.leb 49 c && N.leb c 57)%bool then false
      else mantissa_is_zero r
  end.

Definition is_truthy (v : jsvalue) : bool :=
  match v with
  | VUndef | VNull => false
  | VBool b => b
  | VNum literal => negb (mantissa_is_zero literal)
  | VStr [] => false
  | VStr (_ :: _) | VArr _ | VObj _ => true
  end.

Definition is_json_ws (c : code_unit) : bool :=
  (N.eqb c 32 || N.eqb c 9 || N.eqb c 10 || N.eqb c 13)%bool.

Fixpoint skip_ws (s : jsstring) : jsstring :=
  match s with
  | [] => []
  | x :: r => if is_json_ws x then skip_ws r else s
  end.

Definition is_digit (c : code_unit) : bool := (N.leb 48 c && N.leb c 57)%bool.

Definition hex_value (c : code_unit) : option N :=
  if (N.leb 48 c && N.leb c 57)%bool then Some (c - 48)%N
  else if (N.leb 65 c && N.leb c 70)%bool then Some (c - 55)%N
  else if (N.leb 97 c && N.leb c 102)%bool then Some (c - 87)%N
  else None.

(** The one-letter escapes: quote, backslash, slash, b, f, n, r, t. *)
Definition simple_escape (c : code_unit) : option code_unit :=
  if N.eqb c 34 then Some 34%N
  else if N.eqb c 92 then Some 92%N
  else if N.eqb c 47 then Some 47%N
  else if N.eqb c 98 then Some 8%N
  else if N.eqb c 102 then Some 12%N
  else if N.eqb c 110 then Some 10%N
  else if N.eqb c 114 then Some 13%N
  else if N.eqb c 116 then Some 9%N
  else None.

(** The characters of a string literal after its opening quote; answers
    the decoded string and what follows the closing quote. *)
Fixpoint parse_string_body (s : jsstring) : option (jsstring * jsstring) :=
  match s with
  | [] => None
  | x :: r =>
      if N.eqb x 34 then Some ([], r)
      else if N.eqb x 92 then
        match r with
        | [] => None
        | e :: r1 =>
            if N.eqb e 117 then
              match r1 with
              | h1 :: h2 :: h3 :: h4 :: r2 =>
                  match hex_value h1, hex_value h2, hex_value h3, hex_value h4 with
                  | Some a, Some b, Some c, Some d =>
                      match parse_string_body r2 with
                      | Some (body, rest) =>
                          Some ((a * 4096 + b * 256 + c * 16 + d)%N :: body, rest)
                      | None => None
                      end
                  | _, _, _, _ => None
                  end
              | _ => None
              end
            else
              match simple_escape e with
              | Some c =>
                  match parse_string_body r1 with
                  | Some (body, rest) => Some (c :: body, rest)
                  | None => None
                  end
              | None => None
              end
        end
      else if N.ltb x 32 then None
      else match parse_string_body r with
           | Some (body, rest) => Some (x :: body, rest)
           | None => None
           end
  end.

Fixpoint span_digits (s : jsstring) : jsstring * jsstring :=
  match s with
  | x :: r => if is_digit x
              then let '(d, rest) := span_digits r in (x :: d, rest)
              else ([], s)
  | [] => ([], [])
  end.

(** A number literal: an optional minus sign; then a single zero or a
    non-zero digit followed by digits; then optionally a dot and at least
    one digit; then optionally e or E, a sign, and at least one digit. *)
Definition parse_number (s : jsstring) : option (jsstring * jsstring) :=
  let '(sign, s1) :=
    match s with
    | x :: r => if N.eqb x 45 then ([x], r) else ([], s)
    | [] => ([], s)
    end in
  let int_part :=
    match s1 with
    | x :: r =>
        if N.eqb x 48 then Some ([x], r)
        else if is_digit x then let '(d, rest) := span_digits r in Some (x :: d, rest)
        else None
    | [] => None
    end in
  match int_part with
  | None => None
  | Some (int_digits, s2) =>
      let frac :=
        match s2 with
        | x :: r =>
            if N.eqb x 46 then
              match span_digits r with
              | ([], _) => None
              | (d, rest) => Some (x :: d, rest)
              end
            else Some ([], s2)
        | [] => Some ([], s2)
        end in
      match frac with
      | None => None
      | Some (frac_digits, s3) =>
          let exp :=
            match s3 with
            | x :: r =>
                if (N.eqb x 101 || N.eqb x 69)%bool then
                  let '(esign, r1) :=
                    match r with
                    | y :: r' => if (N.eqb y 43 || N.eqb y 45)%bool
                                 then ([y], r') else ([], r)
                    | [] => ([], r)
                    end in
                  match span_digits r1 with
                  | ([], _) => None
                  | (d, rest) => Some (x :: esign ++ d, rest)
                  end
                else Some ([], s3)
            | [] => Some ([], s3)
            end in
          match exp with
          | None => None
          | Some (exp_part, s4) =>
              Some (sign ++ int_digits ++ frac_digits ++ exp_part, s4)
          end
      end
  end.

(** [JSON.parse] assigns members in source order, so of two members with
    the same key the later one stays. *)
Definition object_of_members (kvs : list (jsstring * jsvalue))
  : gmap jsstring jsvalue :=
  foldl (fun acc kv => <[kv.1 := kv.2]> acc) ∅ kvs.

(** Recursive descent over the JSON grammar.  Every call spends one unit
    of [fuel]; a call chain spends at most two units per consumed code
    unit, which is what [JSON_parse] supplies ([fuel_adequate] below). *)
Fixpoint parse_value (fuel : nat) (s : jsstring) : option (jsvalue * jsstring) :=
  match fuel with
  | O => None
  | S f =>
      match skip_ws s with
      | [] => None
      | x :: r =>
          if N.eqb x 123 then
            match skip_ws r with
            | y :: r1 =>
                if N.eqb y 125 then Some (VObj ∅, r1)
                else match parse_members f r with
                     | Some (kvs, rest) => Some (VObj (object_of_members kvs), rest)
                     | None => None
                     end
            | [] => None
            end
          else if N.eqb x 91 then
            match skip_ws r with
            | y :: r1 =>
                if N.eqb y 93 then Some (VArr [], r1)
                else match parse_elements f r with
                     | Some (vs, rest) => Some (VArr vs, rest)
                     | None => None
                     end
            | [] => None
            end
          else if N.eqb x 34 then
            match parse_string_body r with
            | Some (str, rest) => Some (VStr str, rest)
            | None => None
            end
          else if startsWith (x :: r) (js "true") then Some (VBool true, drop 4 (x :: r))
          else if startsWith (x :: r) (js "false") then Some (VBool false, drop 5 (x :: r))
          else if startsWith (x :: r) (js "null") then Some (VNull, drop 4 (x :: r))
          else match parse_number (x :: r) with
               | Some (lit, rest) => Some (VNum lit, rest)
               | None => None
               end
      end
  end
with parse_elements (fuel : nat) (s : jsstring) : option (list jsvalue * jsstring) :=
  match fuel with
  | O => None
  | S f =>
      match parse_value f s with
      | Some (v, r) =>
          match skip_ws r with
          | y :: r1 =>
              if N.eqb y 44 then
                match parse_elements f r1 with
                | Some (vs, rest) => Some (v :: vs, rest)
                | None => None
                end
              else if N.eqb y 93 then Some ([v], r1)
              else None
          | [] => None
          end
      | None => None
      end
  end
with parse_members (fuel : nat) (s : jsstring)
  : option (list (jsstring * jsvalue) * jsstring) :=
  match fuel with
  | O => None
  | S f =>
      match skip_ws s with
      | q :: r =>
          if N.eqb q 34 then
            match parse_string_body r with
            | Some (k, r1) =>
                match skip_ws r1 with
                | c :: r2 =>
                    if N.eqb c 58 then
                      match parse_value f r2 with
                      | Some (v, r3) =>
                          match skip_ws r3 with
                          | y :: r4 =>
                              if N.eqb y 44 then
                                match parse_members f r4 with
                                | Some (kvs, rest) => Some ((k, v) :: kvs, rest)
                                | None => None
                                end
                              else if N.eqb y 125 then Some ([(k, v)], r4)
                              else None
                          | [] => None
                          end
                      | None => None
                      end
                    else None
                | [] => None
                end
            | None => None
            end
          else None
      | [] => None
      end
  end.

(** [JSON.parse(text)]; [None] stands for the thrown [SyntaxError]. *)
Definition JSON_parse (text : jsstring) : option jsvalue :=
  match parse_value (2 * length text + 2) text with
  | Some (v, rest) =>
      match skip_ws rest with
      | [] => Some v
      | _ :: _ => None
      end
  | None => None
  end.

End Json.
Import Json.

(** ** The zod combinators used by the schemas

    [z.string], [z.boolean], [z.enum], [z.literal], [.nullable()],
    [.optional()], [z.array] and [z.object] with its default treatment of
    unknown keys, which is to leave them out of the result.  A validator
    that fails does not stop its siblings: the issues of all fields and
    all items are collected, in order, each with its path.  Shape keys are
    ordinary property names, as in the four schemas. *)

Module Zod.

Inductive schema :=
| ZString
| ZBoolean
| ZEnum (options : list jsstring)
| ZLiteral (expected : jsstring)
| ZNullable (inner : schema)
| ZOptional (inner : schema)
| ZArray (element : schema)
| ZObject (shape : list (jsstring * schema)).

Inductive parsed_type :=
| TUndefined | TNull | TBoolean | TNumber | TString | TArray | TObject.

Definition getParsedType (v : jsvalue) : parsed_type :=
  match v with
  | VUndef => TUndefined
  | VNull => TNull
  | VBool _ => TBoolean
  | VNum _ => TNumber
  | VStr _ => TString
  | VArr _ => TArray
  | VObj _ => TObject
  end.

Inductive path_item :=
| Key (k : jsstring)
| Index (i : nat).

(** What an [invalid_type] issue says was expected: a type, or (for an
    enum handed something that is not a string) one of its options. *)
Inductive expectation :=
| a_type (t : parsed_type)
| one_of (options : list jsstring).

Inductive issue_code :=
| invalid_type (expected : expectation) (received : parsed_type)
| invalid_enum_value (options : list jsstring) (received : jsstring)
| invalid_literal (expected : jsstring) (received : jsvalue).

Record issue := Issue { code : issue_code; path : list path_item }.

Inductive parse_return :=
| OK (v : jsvalue)
| INVALID (issues : list issue).

Definition is_ok (r : parse_return) : bool :=
  match r with OK _ => true | INVALID _ => false end.

Definition issues_of (r : parse_return) : list issue :=
  match r with OK _ => [] | INVALID l => l end.

Definition value_of (r : parse_return) : jsvalue :=
  match r with OK v => v | INVALID _ => VUndef end.

(** The result of an array: every element is parsed, the issues of all
    of them are collected. *)
Definition mergeArray (results : list parse_return) : parse_return :=
  if forallb is_ok results
  then OK (VArr (map value_of results))
  else INVALID (concat (map issues_of results)).

(** One parsed shape key: the key, whether the input has it, and the
    result of its validator. *)
Definition pair : Type := jsstring * bool * parse_return.

(** A key is written to the result when its value is not [undefined] or
    the input had the key. *)
Definition assign (acc : gmap jsstring jsvalue) (p : pair) : gmap jsstring jsvalue :=
  match p with
  | (k, alwaysSet, r) =>
      match value_of r with
      | VUndef => if alwaysSet then <[k := VUndef]> acc else acc
      | v => <[k := v]> acc
      end
  end.

Definition mergeObject (pairs : list pair) : parse_return :=
  if forallb (fun p => is_ok p.2) pairs
  then OK (VObj (foldl assign ∅ pairs))
  else INVALID (concat (map (fun p => issues_of p.2) pairs)).

Fixpoint zparse (s : schema) (at_path : list path_item) (data : jsvalue)
  : parse_return :=
  match s with
  | ZString =>
      match data with
      | VStr _ => OK data
      | _ => INVALID [Issue (invalid_type (a_type TString) (getParsedType data)) at_path]
      end
  | ZBoolean =>
      match data with
      | VBool _ => OK data
      | _ => INVALID [Issue (invalid_type (a_type TBoolean) (getParsedType data)) at_path]
      end
  | ZEnum options =>
      match data with
      | VStr x =>
          if bool_decide (x ∈ options) then OK data
          else INVALID [Issue (invalid_enum_value options x) at_path]
      | _ => INVALID [Issue (invalid_type (one_of options) (getParsedType data)) at_path]
      end
  | ZLiteral expected =>
      match data with
      | VStr x =>
          if bool_decide (x = expected) then OK data
          else INVALID [Issue (invalid_literal expected data) at_path]
      | _ => INVALID [Issue (invalid_literal expected data) at_path]
      end
  | ZNullable inner =>
      match data with
      | VNull => OK VNull
      | _ => zparse inner at_path data
      end
  | ZOptional inner =>
      match data with
      | VUndef => OK VUndef
      | _ => zparse inner at_path data
      end
  | ZArray element =>
      match data with
      | VArr items =>
          mergeArray
            (imap (fun i x => zparse element (at_path ++ [Index i]) x) items)
      | _ => INVALID [Issue (invalid_type (a_type TArray) (getParsedType data)) at_path]
      end
  | ZObject shape =>
      match data with
      | VObj props =>
          mergeObject
            (map (fun ks => (ks.1, has props ks.1,
                             zparse ks.2 (at_path ++ [Key ks.1]) (get props ks.1)))
               shape)
      | _ => INVALID [Issue (invalid_type (a_type TObject) (getParsedType data)) at_path]
      end
  end.

(** [schema.parse(data)]: the value, or the thrown [ZodError] with its
    issues. *)
Definition parse (s : schema) (data : jsvalue) : parse_return := zparse s [] data.

End Zod.
Import Zod.

(** ** Effects: the trace, exceptions, and the generation endpoint *)

Module Effects.

(** The response of the endpoint, down to the text the scripts read. *)
Record part := { text : option jsstring }.
Record content_t := { parts : option (list part) }.
Record candidate := { content : option content_t }.
Record response_t := { candidates : option (list candidate) }.

(** [await model.generateContent(...)] followed by
    [await result.response]: the call is rejected, or it resolves and the
    response may still be missing. *)
Inductive outcome :=
| Rejects (message : jsstring)
| Resolves (response : option response_t).

(** [fs.writeFileSync(file, data)]: the file is written, or the call
    throws a system error (with its code: [EACCES], [ENOSPC], ...). *)
Inductive write_outcome :=
| Written
| Fails (code : jsstring).

Inductive exn :=
| TransportError (message : jsstring)
| TypeError
| ZodError (issues : list issue)
| SystemError (code : jsstring).

Inductive datum :=
| DText (s : jsstring)
| DValue (v : jsvalue)
| DResponse (r : option response_t)
| DError (e : exn)
| DSyntaxError
| DIssues (l : list issue).

Inductive event :=
| console_error (args : list datum)
| console_warn (args : list datum)
| console_log (args : list datum)
| call_generateContent (prompt : jsstring)
| call_JSON_parse (text : jsstring)
| fs_writeFileSync (file data : jsstring).

(** A computation: what it traced, and its value or the exception it
    threw. *)
Definition M (A : Type) : Type := list event * (exn + A).

Definition ret {A} (a : A) : M A := ([], inr a).
Definition throw {A} (e : exn) : M A := ([], inl e).
Definition emit (ev : event) : M unit := ([ev], inr tt).

Definition bind {A B} (m : M A) (k : A -> M B) : M B :=
  match m with
  | (tr, inl e) => (tr, inl e)
  | (tr, inr a) => let '(tr', r) := k a in (tr ++ tr', r)
  end.

(** [try { body } catch (error) { handler }] *)
Definition try_catch {A} (body : M A) (handler : exn -> M A) : M A :=
  match body with
  | (tr, inl e) => let '(tr', r) := handler e in (tr ++ tr', r)
  | (tr, inr a) => (tr, inr a)
  end.

#[export] Instance M_ret : MRet M := @ret.
#[export] Instance M_bind : MBind M := fun A B k m => bind m k.

Definition trace {A} (m : M A) : list event := m.1.
Definition result {A} (m : M A) : exn + A := m.2.

Definition is_error (ev : event) : bool :=
  match ev with console_error _ => true | _ => false end.

Definition is_parse_call (ev : event) : bool :=
  match ev with call_JSON_parse _ => true | _ => false end.

Definition is_endpoint_call (ev : event) : bool :=
  match ev with call_generateContent _ => true | _ => false end.

End Effects.
Import Effects.

(** ** The renderer: [convertToHTML] *)

Module Render.

(** An element of a form definition, with the fields the renderer
    reads; an absent field is [None]. *)
Record element := Element {
  type : jsstring;
  label : option jsstring;
  name : option jsstring;
  required : option bool;
  placeholder : option jsstring;
  value : option jsstring
}.

Record form := Form {
  tag : jsstring;
  elements : option (list element)
}.

(** The two locals of [convertToHTML], [html] and [inList], and what was
    sent to the console.  [html] is kept as the list of the pieces
    appended by [html += ...]; the string is their concatenation. *)
Record state := State {
  html : list jsstring;
  inList : bool;
  console : list event
}.

Definition append (st : state) (piece : jsstring) : state :=
  State (html st ++ [piece]) (inList st) (console st).

Definition append_if (b : bool) (st : state) (piece : jsstring) : state :=
  if b then append st piece else st.

Definition form_open : jsstring :=
  js "<form class=" ++ dq ++ js "cv-form" ++ dq ++ js ">" ++ nl.
Definition form_close : jsstring := js "</form>" ++ nl.
Definition ul_open : jsstring := js "  <ul>" ++ nl.
Definition ul_close : jsstring := js "  </ul>" ++ nl.

(** [if (inList) { html += `  </ul>\n`; inList = false; }] *)
Definition closeList (st : state) : state :=
  if inList st then State (html st ++ [ul_close]) false (console st) else st.

(** [a || b] on strings. *)
Definition or_else (a : option jsstring) (b : jsstring) : jsstring :=
  match a with
  | Some (c :: r) => c :: r
  | _ => b
  end.

Definition is_input_like (t : jsstring) : bool :=
  jseqb t (js "text-input") || jseqb t (js "textarea")
  || jseqb t (js "date-input") || jseqb t (js "email-input")
  || jseqb t (js "phone-input") || jseqb t (js "url-input").

Section Renderer.

(** [String.prototype.toLowerCase], the case mapping of the runtime. *)
Variable toLowerCase : jsstring -> jsstring.

(** [element.name || element.label.toLowerCase().replace(/\s+/g, "-")],
    evaluated where [element.label] is a non-empty string. *)
Definition field_id (e : element) : jsstring :=
  or_else (name e)
    (replaceWhiteSpaceRuns (toLowerCase (default [] (label e))) (js "-")).

Definition render_input (st : state) (e : element) : state :=
  let st := closeList st in
  let inputType := replaceFirst (type e) (js "-input") [] in
  let st := append st (js "  <div class=" ++ dq ++ js "form-field" ++ dq ++ js ">" ++ nl) in
  let st := append_if (truthy (label e)) st
              (js "    <label for=" ++ dq ++ field_id e ++ dq ++ js ">"
               ++ default [] (label e) ++ js "</label>" ++ nl) in
  let st := if jseqb (type e) (js "textarea")
            then append st (js "    <textarea")
            else append st (js "    <input type=" ++ dq ++ inputType ++ dq) in
  let st := append_if (truthy (name e)) st
              (js " name=" ++ dq ++ default [] (name e) ++ dq) in
  let st := append_if (truthy (label e)) st
              (js " id=" ++ dq ++ field_id e ++ dq) in
  let st := append_if (bool_decide (required e = Some true)) st (js " required") in
  let st := append_if (truthy (placeholder e)) st
              (js " placeholder=" ++ dq ++ default [] (placeholder e) ++ dq) in
  let st := if jseqb (type e) (js "textarea")
            then append st (js "></textarea>" ++ nl)
            else append st (js ">" ++ nl) in
  append st (js "  </div>" ++ nl).

(** The body of the [forEach] callback: the [switch] on
    [element.type]. *)
Definition render_element (st : state) (e : element) : state :=
  if jseqb (type e) (js "section-header") then
    let st := closeList st in
    append st (js "  <h2>" ++ or_else (label e) [] ++ js "</h2>" ++ nl)
  else if is_input_like (type e) then
    render_input st e
  else if jseqb (type e) (js "bullet-list-item") then
    let st := if inList st then st
              else State (html st ++ [ul_open]) true (console st) in
    append st (js "    <li>" ++ or_else (value e) [] ++ js "</li>" ++ nl)
  else if jseqb (type e) (js "submit-button") then
    let st := closeList st in
    let st := append st (js "  <button type=" ++ dq ++ js "submit" ++ dq) in
    let st := append_if (truthy (name e)) st
                (js " name=" ++ dq ++ default [] (name e) ++ dq) in
    append st (js ">" ++ or_else (label e) (js "Submit") ++ js "</button>" ++ nl)
  else
    State (html st) (inList st)
      (console st ++ [console_warn [DText (js "Unknown element type: " ++ type e)]]).

Definition initial : state := State [form_open] false [].

(** The state when the [forEach] is over (or was not entered). *)
Definition after_elements (ui : form) : state :=
  match elements ui with
  | Some (e :: es) => foldl render_element initial (e :: es)
  | _ => initial
  end.

(** The pieces of the returned markup, in the order they were
    appended. *)
Definition pieces (ui : form) : list jsstring :=
  html (closeList (after_elements ui)) ++ [form_close].

Definition convertToHTML (ui : form) : M jsstring :=
  (console (after_elements ui), inr (concat (pieces ui))).

End Renderer.

(** Reading a validated value as a form definition. *)
Definition string_field (props : gmap jsstring jsvalue) (k : jsstring)
  : option (option jsstring) :=
  match props !! k with
  | None | Some VUndef => Some None
  | Some (VStr s) => Some (Some s)
  | Some _ => None
  end.

Definition bool_field (props : gmap jsstring jsvalue) (k : jsstring)
  : option (option bool) :=
  match props !! k with
  | None | Some VUndef => Some None
  | Some (VBool b) => Some (Some b)
  | Some _ => None
  end.

Definition element_of_value (v : jsvalue) : option element :=
  match v with
  | VObj props =>
      match props !! js "type" with
      | Some (VStr t) =>
          l ← string_field props (js "label");
          n ← string_field props (js "name");
          r ← bool_field props (js "required");
          p ← string_field props (js "placeholder");
          x ← string_field props (js "value");
          Some (Element t l n r p x)
      | _ => None
      end
  | _ => None
  end.

Definition form_of_value (v : jsvalue) : option form :=
  match v with
  | VObj props =>
      match props !! js "type", props !! js "elements" with
      | Some (VStr t), Some (VArr items) =>
          es ← mapM element_of_value items;
          Some (Form t (Some es))
      | _, _ => None
      end
  | _ => None
  end.

End Render.
Import Render.

(** ** The four scripts *)

Module Scripts.

Definition ContentCompliance : schema :=
  ZObject [
    (js "is_violating", ZBoolean);
    (js "category", ZNullable (ZEnum [js "violence"; js "sexual"; js "self_harm"]));
    (js "explanation_if_violating", ZNullable ZString)
  ].

Definition CookBook : schema :=
  ZObject [
    (js "name", ZString);
    (js "timeToCook", ZString);
    (js "ingredients", ZArray ZString)
  ].

Definition element_types : list jsstring :=
  [js "section-header"; js "text-input"; js "textarea"; js "date-input";
   js "email-input"; js "phone-input"; js "url-input";
   js "bullet-list-item"; js "submit-button"].

Definition CVElement : schema :=
  ZObject [
    (js "type", ZEnum element_types);
    (js "label", ZOptional ZString);
    (js "name", ZOptional ZString);
    (js "required", ZOptional ZBoolean);
    (js "placeholder", ZOptional ZString);
    (js "value", ZOptional ZString)
  ].

Definition CVForm : schema :=
  ZObject [
    (js "type", ZLiteral (js "cv-form"));
    (js "elements", ZArray CVElement)
  ].

Definition Step : schema :=
  ZObject [ (js "explanation", ZString); (js "output", ZString) ].

Definition GuideSteps : schema :=
  ZObject [ (js "steps", ZArray Step) ].

(** The document of the UI script: the template literal of [main], with
    [html] in place of its one substitution.  [document_head] lists the
    lines of the template before the substitution. *)
Definition document_head : list jsstring :=
  [js "<!DOCTYPE html>";
   js "<html lang=" ++ dq ++ js "en" ++ dq ++ js ">";
   js "<head>";
   js "  <meta charset=" ++ dq ++ js "UTF-8" ++ dq ++ js ">";
   js "  <meta name=" ++ dq ++ js "viewport" ++ dq ++ js " content=" ++ dq ++ js "width=device-width, initial-scale=1.0" ++ dq ++ js ">";
   js "  <title>Generated CV Form</title>";
   js "  <style>";
   js "    body {";
   js "      font-family: Arial, sans-serif;";
   js "      max-width: 800px;";
   js "      margin: 0 auto;";
   js "      padding: 20px;";
   js "      background-color: #f4f7f6;";
   js "    }";
   js "    .cv-form {";
   js "      display: flex;";
   js "      flex-direction: column;";
   js "      gap: 25px;";
   js "      padding: 30px;";
   js "      border: 1px solid #dcdcdc;";
   js "      border-radius: 10px;";
   js "      background-color: #fff;";
   js "      box-shadow: 0 2px 5px rgba(0,0,0,0.1);";
   js "    }";
   js "    h2 {";
   js "      margin-top: 0;";
   js "      color: #333;";
   js "      border-bottom: 2px solid #5a9bd5;";
   js "      padding-bottom: 5px;";
   js "      margin-bottom: 20px;";
   js "    }";
   js "    .form-field {";
   js "      display: flex;";
   js "      flex-direction: column;";
   js "      margin-bottom: 15px;";
   js "    }";
   js "    label {";
   js "      margin-bottom: 8px;";
   js "      font-weight: bold;";
   js "      color: #555;";
   js "    }";
   js "    input, textarea, select {";
   js "      padding: 12px;";
   js "      border: 1px solid #ccc;";
   js "      border-radius: 5px;";
   js "      font-size: 16px;";
   js "      width: 100%;";
   js "      box-sizing: border-box;";
   js "    }";
   js "    textarea {";
   js "        min-height: 100px;";
   js "        resize: vertical;";
   js "    }";
   js "    ul {";
   js "        list-style: disc inside;";
   js "        padding-left: 20px;";
   js "        margin-top: 10px;";
   js "        margin-bottom: 15px;";
   js "    }";
   js "    li {";
   js "        margin-bottom: 5px;";
   js "    }";
   js "    button {";
   js "      padding: 12px 20px;";
   js "      background-color: #5a9bd5;";
   js "      color: white;";
   js "      border: none;";
   js "      border-radius: 5px;";
   js "      cursor: pointer;";
   js "      font-size: 18px;";
   js "      font-weight: bold;";
   js "      margin-top: 20px;";
   js "      align-self: flex-start;";
   js "      transition: background-color 0.3s ease;";
   js "    }";
   js "    button:hover {";
   js "      background-color: #4a8acb;";
   js "    }";
   js "  </style>";
   js "</head>";
   js "<body>"].

Definition htmlDocument (html : jsstring) : jsstring :=
  concat (map (fun line => line ++ nl) document_head)
  ++ html ++ nl ++ js "</body>" ++ nl ++ js "</html>".

Section WithEndpoint.

(** The generation endpoint: what a call with a given prompt comes
    back with.  The system instruction is a constant of each script. *)
Variable generateContent : jsstring -> outcome.

Variable toLowerCase : jsstring -> jsstring.

(** The file system: what a call of [fs.writeFileSync] with a given file
    name and content comes back with. *)
Variable writeFileSync : jsstring -> jsstring -> write_outcome.

Definition await_response (prompt : jsstring) : M (option response_t) :=
  emit (call_generateContent prompt);;
  match generateContent prompt with
  | Rejects message => throw (TransportError message)
  | Resolves response => mret response
  end.

(** [response?.candidates?.[0]?.content?.parts?.[0]?.text] *)
Definition text_of (response : option response_t) : option jsstring :=
  r ← response;
  cs ← candidates r;
  c ← head cs;
  ct ← content c;
  ps ← parts ct;
  p ← head ps;
  text p.

Definition no_json_message : jsstring :=
  js "Could not find a valid JSON object in the response:".
Definition parse_failure_message : jsstring :=
  js "Failed to parse JSON string:".

(** From [const jsonStartIndex = text.indexOf('{')] to
    [return Schema.parse(parsedData)]: the same statements in all four
    functions, with the schema of each. *)
Definition locate_parse_validate (s : schema) (text : jsstring) : M jsvalue :=
  let jsonStartIndex := indexOf text lbrace in
  let jsonEndIndex := lastIndexOf text rbrace in
  if (jsonStartIndex =? -1) || (jsonEndIndex =? -1)
     || (jsonStartIndex >=? jsonEndIndex)
  then
    emit (console_error [DText no_json_message; DText text]);;
    mret VNull
  else
    let jsonData := substring text jsonStartIndex (jsonEndIndex + 1) in
    emit (call_JSON_parse jsonData);;
    match JSON_parse jsonData with
    | None =>
        emit (console_error [DText parse_failure_message; DText jsonData;
                             DText (js "Error:"); DSyntaxError]);;
        mret VNull
    | Some parsedData =>
        match Zod.parse s parsedData with
        | OK v => mret v
        | INVALID issues => throw (ZodError issues)
        end
    end.

(** [if (error instanceof z.ZodError) console.error("Zod validation
    failed:", error.issues)] *)
Definition log_zod_issues (error : exn) : M unit :=
  match error with
  | ZodError issues =>
      emit (console_error [DText (js "Zod validation failed:"); DIssues issues])
  | _ => mret tt
  end.

(** The guard of [extractCook] and [extractStructuredData] on the shape
    of the response; past it, [parts[0].text.trim()] throws when the
    part has no text. *)
Definition first_part (response : option response_t) : option part :=
  match response with
  | Some r =>
      match candidates r with
      | Some (c :: _) =>
          match content c with
          | Some ct =>
              match parts ct with
              | Some (p :: _) => Some p
              | _ => None
              end
          | None => None
          end
      | _ => None
      end
  | None => None
  end.

Definition checked_trimmed_text (response : option response_t)
           (k : jsstring -> M jsvalue) : M jsvalue :=
  match first_part response with
  | None =>
      emit (console_error [DText (js "Unexpected response format from Gemini:");
                           DResponse response]);;
      mret VNull
  | Some p =>
      match text p with
      | None => throw TypeError
      | Some t => k (trim t)
      end
  end.

Definition checkCompliance (prompt : jsstring) : M jsvalue :=
  try_catch
    (response ← await_response prompt;
     match text_of response with
     | None | Some [] =>
         emit (console_error [DText (js "Model returned no text.")]);;
         mret VNull
     | Some text => locate_parse_validate ContentCompliance text
     end)
    (fun error =>
       emit (console_error [DText (js "Failed to process Gemini response:");
                            DError error]);;
       log_zod_issues error;;
       mret VNull).

Definition extractCook (prompt : jsstring) : M jsvalue :=
  try_catch
    (response ← await_response prompt;
     checked_trimmed_text response (locate_parse_validate CookBook))
    (fun error =>
       emit (console_error
               [DText (js "Failed to process Gemini response or validate data:");
                DError error]);;
       mret VNull).

Definition generateUI (prompt : jsstring) : M jsvalue :=
  try_catch
    (response ← await_response prompt;
     match text_of response with
     | None | Some [] =>
         emit (console_error [DText (js "Model returned no text.")]);;
         mret VNull
     | Some text =>
         emit (console_log [DText (js "Raw model output before JSON extraction:")]);;
         emit (console_log [DText text]);;
         locate_parse_validate CVForm text
     end)
    (fun error =>
       emit (console_error
               [DText (js "Failed to process Gemini response or validate data:");
                DError error]);;
       log_zod_issues error;;
       mret VNull).

Definition extractStructuredData (prompt : jsstring) : M jsvalue :=
  try_catch
    (response ← await_response prompt;
     checked_trimmed_text response (locate_parse_validate GuideSteps))
    (fun error =>
       emit (console_error [DText (js "Failed to process Gemini response:");
                            DError error]);;
       log_zod_issues error;;
       mret VNull).

(** The [main] of each script.  The prompt is the string literal of the
    source, passed in. *)
Definition main_compliance (prompt : jsstring) : M unit :=
  emit (console_log [DText (js "Prompt:"); DText prompt]);;
  compliance ← checkCompliance prompt;
  if is_truthy compliance
  then emit (console_log [DText (js "Content compliance:"); DValue compliance])
  else emit (console_log [DText (js "Failed to perform compliance check.")]).

Definition main_cook (prompt : jsstring) : M unit :=
  emit (console_log [DText (js "Prompt:"); DText prompt]);;
  recipeInfo ← extractCook prompt;
  if is_truthy recipeInfo
  then emit (console_log [DText (js "Parsed recipe:"); DValue recipeInfo])
  else emit (console_log [DText (js "Failed to parse recipe details.")]).

(** [fs.writeFileSync(file, data)] in [main]: the call is traced with
    its arguments, and what it throws is not caught. *)
Definition write_file (file data : jsstring) : M unit :=
  emit (fs_writeFileSync file data);;
  match writeFileSync file data with
  | Written => mret tt
  | Fails code => throw (SystemError code)
  end.

(** A value that is not a form definition has no rendering
    ([validated_form_decodes] below: [generateUI] never returns one). *)
Definition main_ui (prompt : jsstring) : M unit :=
  emit (console_log [DText (js "Prompt:"); DText prompt]);;
  ui ← generateUI prompt;
  if is_truthy ui then
    match form_of_value ui with
    | None => throw TypeError
    | Some f =>
        html ← convertToHTML toLowerCase f;
        emit (console_log [DText (js "UI JSON Structure:")]);;
        emit (console_log [DValue ui]);;
        emit (console_log [DText (nl ++ js "Generated HTML:")]);;
        emit (console_log [DText html]);;
        write_file (js "generated-cv-form.html") (htmlDocument html);;
        emit (console_log [DText (nl ++ js "HTML saved to generated-cv-form.html")])
    end
  else emit (console_log [DText (js "Failed to generate UI.")]).

Definition main_guide (prompt : jsstring) : M unit :=
  emit (console_log [DText (js "Prompt:"); DText prompt]);;
  everestGuide ← extractStructuredData prompt;
  if is_truthy everestGuide
  then emit (console_log [DText (js "Parsed Everest climbing guide:");
                          DValue everestGuide])
  else emit (console_log [DText (js "Failed to parse Everest climbing guide.")]).

(** A whole script: the credential check at module level, then
    [main()].  The answer is the trace and the exit status of the
    process; a rejection of [main()] that nothing handles ends the
    process with status 1. *)
Definition script (apiKey : option jsstring) (main : M unit) : list event * Z :=
  if negb (truthy apiKey) then
    ([console_error [DText (js "GOOGLE_API_KEY not found in environment variables.")]], 1)
  else
    match main with
    | (tr, inl _) => (tr, 1)
    | (tr, inr _) => (tr, 0)
    end.

End WithEndpoint.

End Scripts.
Import Scripts.

(** ** What the schemas accept *)

Module SchemaSpec.

(** The shape keys of an object schema are the keys of a JavaScript
    object: no key occurs twice. *)
Fixpoint wf (s : schema) : bool :=
  match s with
  | ZNullable inner | ZOptional inner => wf inner
  | ZArray element => wf element
  | ZObject shape =>
      bool_decide (NoDup shape.*1) && forallb (λ ks, wf ks.2) shape
  | _ => true
  end.

(** A value matches a schema: every required field is present with the
    declared primitive type, an enum field takes one of its declared
    values, a nullable field may be [null], an optional one may be
    absent, and arrays and objects match item by item and field by
    field. *)
Fixpoint matches (s : schema) (v : jsvalue) : bool :=
  match s with
  | ZString => match v with VStr _ => true | _ => false end
  | ZBoolean => match v with VBool _ => true | _ => false end
  | ZEnum options =>
      match v with VStr x => bool_decide (x ∈ options) | _ => false end
  | ZLiteral expected =>
      match v with VStr x => bool_decide (x = expected) | _ => false end
  | ZNullable inner =>
      match v with VNull => true | _ => matches inner v end
  | ZOptional inner =>
      match v with VUndef => true | _ => matches inner v end
  | ZArray element =>
      match v with VArr items => forallb (matches element) items | _ => false end
  | ZObject shape =>
      match v with
      | VObj props => forallb (λ ks, matches ks.2 (get props ks.1)) shape
      | _ => false
      end
  end.

(** A value carries no key that its schema does not declare, at any
    depth. *)
Fixpoint only_declared_keys (s : schema) (v : jsvalue) : bool :=
  match s with
  | ZNullable inner | ZOptional inner => only_declared_keys inner v
  | ZArray element =>
      match v with
      | VArr items => forallb (only_declared_keys element) items
      | _ => true
      end
  | ZObject shape =>
      match v with
      | VObj props =>
          bool_decide (dom props ⊆ list_to_set shape.*1)
          && forallb (λ ks, only_declared_keys ks.2 (get props ks.1)) shape
      | _ => true
      end
  | _ => true
  end.

(** The issues a value raises against a schema, each with the path of
    the offending field: a required field that is missing or a field of
    the wrong type ([invalid_type], an absent field being received as
    [undefined]), an enum value outside the declared set, a literal that
    differs; below an object or an array, the issue of a field or of an
    item, with the key or the index added to the path. *)
Inductive violation : schema → list path_item → jsvalue → issue → Prop :=
| not_a_string p v :
    getParsedType v ≠ TString →
    violation ZString p v (Issue (invalid_type (a_type TString) (getParsedType v)) p)
| not_a_boolean p v :
    getParsedType v ≠ TBoolean →
    violation ZBoolean p v (Issue (invalid_type (a_type TBoolean) (getParsedType v)) p)
| enum_not_a_string options p v :
    getParsedType v ≠ TString →
    violation (ZEnum options) p v
      (Issue (invalid_type (one_of options) (getParsedType v)) p)
| enum_outside_set options p x :
    x ∉ options →
    violation (ZEnum options) p (VStr x) (Issue (invalid_enum_value options x) p)
| literal_differs expected p v :
    v ≠ VStr expected →
    violation (ZLiteral expected) p v (Issue (invalid_literal expected v) p)
| not_an_array element p v :
    getParsedType v ≠ TArray →
    violation (ZArray element) p v
      (Issue (invalid_type (a_type TArray) (getParsedType v)) p)
| not_an_object shape p v :
    getParsedType v ≠ TObject →
    violation (ZObject shape) p v
      (Issue (invalid_type (a_type TObject) (getParsedType v)) p)
| under_nullable inner p v i :
    v ≠ VNull → violation inner p v i → violation (ZNullable inner) p v i
| under_optional inner p v i :
    v ≠ VUndef → violation inner p v i → violation (ZOptional inner) p v i
| in_item element p items n x i :
    items !! n = Some x →
    violation element (p ++ [Index n]) x i →
    violation (ZArray element) p (VArr items) i
| in_field shape p props k s i :
    (k, s) ∈ shape →
    violation s (p ++ [Key k]) (get props k) i →
    violation (ZObject shape) p (VObj props) i.

End SchemaSpec.
Import SchemaSpec.

Section SchemaInduction.

Variable P : schema → Prop.
Hypothesis HString : P ZString.
Hypothesis HBoolean : P ZBoolean.
Hypothesis HEnum : ∀ options, P (ZEnum options).
Hypothesis HLiteral : ∀ expected, P (ZLiteral expected).
Hypothesis HNullable : ∀ inner, P inner → P (ZNullable inner).
Hypothesis HOptional : ∀ inner, P inner → P (ZOptional inner).
Hypothesis HArray : ∀ element, P element → P (ZArray element).
Hypothesis HObject : ∀ shape, Forall (λ ks, P ks.2) shape → P (ZObject shape).

Fixpoint schema_rect_nested (s : schema) : P s :=
  match s with
  | ZString => HString
  | ZBoolean => HBoolean
  | ZEnum options => HEnum options
  | ZLiteral expected => HLiteral expected
  | ZNullable inner => HNullable inner (schema_rect_nested inner)
  | ZOptional inner => HOptional inner (schema_rect_nested inner)
  | ZArray element => HArray element (schema_rect_nested element)
  | ZObject shape =>
      HObject shape
        ((fix fields (l : list (jsstring * schema)) : Forall (λ ks, P ks.2) l :=
            match l with
            | [] => List.Forall_nil _
            | ks :: l' =>
                @List.Forall_cons _ _ ks l' (schema_rect_nested ks.2) (fields l')
            end) shape)
  end.

End SchemaInduction.

(** ** The four extraction functions, side by side *)

Module Pipeline.

Inductive extractor :=
| CheckCompliance
| ExtractCook
| GenerateUI
| ExtractStructuredData.

Definition run (f : extractor) (generateContent : jsstring → outcome)
  : jsstring → M jsvalue :=
  match f with
  | CheckCompliance => checkCompliance generateContent
  | ExtractCook => extractCook generateContent
  | GenerateUI => generateUI generateContent
  | ExtractStructuredData => extractStructuredData generateContent
  end.

Definition schema_of (f : extractor) : schema :=
  match f with
  | CheckCompliance => ContentCompliance
  | ExtractCook => CookBook
  | GenerateUI => CVForm
  | ExtractStructuredData => GuideSteps
  end.

(** [extractCook] and [extractStructuredData] trim the text before they
    look for braces. *)
Definition text_seen (f : extractor) (text : jsstring) : jsstring :=
  match f with
  | CheckCompliance | GenerateUI => text
  | ExtractCook | ExtractStructuredData => trim text
  end.

(** [checkCompliance] and [generateUI] test [!text], which also holds of
    the empty string. *)
Definition empty_is_no_text (f : extractor) : bool :=
  match f with
  | CheckCompliance | GenerateUI => true
  | ExtractCook | ExtractStructuredData => false
  end.

(** The text has no opening brace, or no closing brace, or its first
    opening brace does not come strictly before its last closing one. *)
Definition no_object (text : jsstring) : Prop :=
  lbrace ∉ text ∨ rbrace ∉ text
  ∨ ¬ (indexOf text lbrace < lastIndexOf text rbrace).

(** The candidate payload: from the first opening brace to the last
    closing brace, both included. *)
Definition json_slice (text : jsstring) : jsstring :=
  substring text (indexOf text lbrace) (lastIndexOf text rbrace + 1).

Definition no_json_error (text : jsstring) : event :=
  console_error [DText no_json_message; DText text].

Definition malformed_error (jsonData : jsstring) : event :=
  console_error [DText parse_failure_message; DText jsonData;
                 DText (js "Error:"); DSyntaxError].

(** What each function traces before it looks for braces. *)
Definition prelude (f : extractor) (prompt text : jsstring) : list event :=
  match f with
  | GenerateUI =>
      [call_generateContent prompt;
       console_log [DText (js "Raw model output before JSON extraction:")];
       console_log [DText text]]
  | _ => [call_generateContent prompt]
  end.

(** What the [catch] block of each function traces. *)
Definition caught (f : extractor) (error : exn) : list event :=
  let zod := match error with
             | ZodError issues =>
                 [console_error [DText (js "Zod validation failed:"); DIssues issues]]
             | _ => []
             end in
  match f with
  | CheckCompliance | ExtractStructuredData =>
      console_error [DText (js "Failed to process Gemini response:"); DError error]
      :: zod
  | GenerateUI =>
      console_error [DText (js "Failed to process Gemini response or validate data:");
                     DError error] :: zod
  | ExtractCook =>
      [console_error [DText (js "Failed to process Gemini response or validate data:");
                      DError error]]
  end.

(** A function body under its [try]/[catch]: a value is returned as it
    is, an exception is traced by the handler and becomes [null]. *)
Definition settle (before : list event) (handler : exn → list event)
           (m : M jsvalue) : M jsvalue :=
  match m with
  | (tr, inr v) => (before ++ tr, inr v)
  | (tr, inl e) => (before ++ tr ++ handler e, inr VNull)
  end.

(** The success of an extraction function: the endpoint answered with a
    text, the text has an object span, the span parses, and the parsed
    value passes the schema with result [v]. *)
Definition succeeds (generateContent : jsstring → outcome) (f : extractor)
           (prompt : jsstring) (v : jsvalue) : Prop :=
  ∃ r text payload,
    generateContent prompt = Resolves r
    ∧ text_of r = Some text
    ∧ ¬ no_object (text_seen f text)
    ∧ JSON_parse (json_slice (text_seen f text)) = Some payload
    ∧ Zod.parse (schema_of f) payload = OK v.

Definition credential_error : list event :=
  [console_error [DText (js "GOOGLE_API_KEY not found in environment variables.")]].

End Pipeline.
Import Pipeline.

(** ** What the markup should look like *)

Module RenderSpec.

Definition is_list_item (e : element) : bool :=
  jseqb (type e) (js "bullet-list-item").

(** The element has one of the nine kinds of the [CVElement] enum. *)
Definition recognized (e : element) : bool :=
  bool_decide (type e ∈ element_types).

Definition hyphen : code_unit := 45%N.

(** [collapsed s t]: [t] is [s] with every maximal run of white space
    replaced by one hyphen. *)
Inductive collapsed : jsstring → jsstring → Prop :=
| collapsed_nil : collapsed [] []
| collapsed_unit x s t :
    isWhiteSpace x = false → collapsed s t → collapsed (x :: s) (x :: t)
| collapsed_run run s t :
    run ≠ [] →
    Forall (λ x, isWhiteSpace x = true) run →
    (∀ y, head s = Some y → isWhiteSpace y = false) →
    collapsed s t →
    collapsed (run ++ s) (hyphen :: t).

Definition label_piece (id text : jsstring) : jsstring :=
  js "    <label for=" ++ dq ++ id ++ dq ++ js ">" ++ text ++ js "</label>" ++ nl.

Definition id_piece (id : jsstring) : jsstring :=
  js " id=" ++ dq ++ id ++ dq.

Section Grouping.

Variable toLowerCase : jsstring → jsstring.

(** The pieces of an element that is not a list item, rendered on its
    own. *)
Definition block (e : element) : list jsstring :=
  html (render_element toLowerCase (State [] false []) e).

Definition item (e : element) : jsstring :=
  js "    <li>" ++ or_else (value e) [] ++ js "</li>" ++ nl.

(** The sequence cut into its maximal runs of consecutive list items
    ([inl]) and its other elements ([inr]). *)
Fixpoint runs (es : list element) : list (list element + element) :=
  match es with
  | [] => []
  | e :: rest =>
      if is_list_item e then
        match runs rest with
        | inl run :: groups => inl (e :: run) :: groups
        | groups => inl [e] :: groups
        end
      else inr e :: runs rest
  end.

(** One list container around the items of a run; the block of any other
    element. *)
Definition group_pieces (g : list element + element) : list jsstring :=
  match g with
  | inl run => [ul_open] ++ map item run ++ [ul_close]
  | inr e => block e
  end.

Definition grouped_pieces (es : list element) : list jsstring :=
  [form_open] ++ concat (map group_pieces (runs es)) ++ [form_close].

(** What the loop and the closing test append when the loop is entered
    with [inList = b]. *)
Definition stream (b : bool) (es : list element) : list jsstring :=
  html (closeList (foldl (render_element toLowerCase) (State [] b []) es)).

End Grouping.

(** The branch of the [switch] an element takes. *)
Inductive kind_of_element (e : element) : Prop :=
| is_heading :
    jseqb (type e) (js "section-header") = true →
    is_list_item e = false → recognized e = true → kind_of_element e
| is_field :
    jseqb (type e) (js "section-header") = false →
    is_input_like (type e) = true →
    is_list_item e = false → recognized e = true → kind_of_element e
| is_item :
    jseqb (type e) (js "section-header") = false →
    is_input_like (type e) = false →
    is_list_item e = true → recognized e = true → kind_of_element e
| is_submit :
    jseqb (type e) (js "section-header") = false →
    is_input_like (type e) = false →
    is_list_item e = false →
    jseqb (type e) (js "submit-button") = true →
    recognized e = true → kind_of_element e
| is_unrecognized :
    jseqb (type e) (js "section-header") = false →
    is_input_like (type e) = false →
    is_list_item e = false →
    jseqb (type e) (js "submit-button") = false →
    recognized e = false → kind_of_element e.

(** [shift h c st] is [st] with [h] appended before and [c] traced
    before. *)
Definition shift (h : list jsstring) (c : list event) (st : state) : state :=
  State (h ++ html st) (inList st) (c ++ console st).

Definition elements_list (ui : form) : list element := default [] (elements ui).

Definition unknown_type_warning (e : element) : event :=
  console_warn [DText (js "Unknown element type: " ++ type e)].

(** A piece that is neither the opening nor the closing tag of a list. *)
Definition no_list_tag (x : jsstring) : Prop := x ≠ ul_open ∧ x ≠ ul_close.

(** How many times a piece was appended. *)
Definition count (piece : jsstring) (l : list jsstring) : nat :=
  length (filter (λ x, x = piece) l).

(** The four-element sequence of the example: a heading, two list items,
    a submit button. *)
Definition skills_form : form :=
  Form (js "cv-form")
    (Some [Element (js "section-header") (Some (js "Skills")) None None None None;
           Element (js "bullet-list-item") None None None None (Some (js "Go"));
           Element (js "bullet-list-item") None None None None (Some (js "Rust"));
           Element (js "submit-button") (Some (js "Send")) None None None None]).

End RenderSpec.
Import RenderSpec.

(** ** Sample inputs *)

Module Samples.

(** An endpoint that answers every prompt with the given text. *)
Definition reply (text : jsstring) : jsstring → outcome :=
  λ _, Resolves (Some {| candidates :=
                           Some [ {| content :=
                                       Some {| parts := Some [ {| text := Some text |} ] |} |} ] |}).

Definition quoted (s : string) : jsstring := dq ++ js s ++ dq.

(** The verdict wrapped in prose. *)
Definition verdict_text : jsstring :=
  js "Sure! {" ++ quoted "is_violating" ++ js ":false,"
  ++ quoted "category" ++ js ":null,"
  ++ quoted "explanation_if_violating" ++ js ":null} Hope that helps.".

Definition verdict : jsvalue :=
  VObj (list_to_map [(js "is_violating", VBool false);
                     (js "category", VNull);
                     (js "explanation_if_violating", VNull)]).

(** A verdict with one more key than the schema declares. *)
Definition annotated_text : jsstring :=
  js "{" ++ quoted "is_violating" ++ js ":false,"
  ++ quoted "category" ++ js ":null,"
  ++ quoted "explanation_if_violating" ++ js ":null,"
  ++ quoted "note" ++ js ":" ++ quoted "x" ++ js "}".

Definition annotated_verdict : jsvalue :=
  VObj (list_to_map [(js "is_violating", VBool false);
                     (js "category", VNull);
                     (js "explanation_if_violating", VNull);
                     (js "note", VStr (js "x"))]).

(** A verdict whose category is not one of the three declared. *)
Definition spam_text : jsstring :=
  js "{" ++ quoted "is_violating" ++ js ":true,"
  ++ quoted "category" ++ js ":" ++ quoted "spam" ++ js ","
  ++ quoted "explanation_if_violating" ++ js ":null}".

Definition spam_verdict : jsvalue :=
  VObj (list_to_map [(js "is_violating", VBool true);
                     (js "category", VStr (js "spam"));
                     (js "explanation_if_violating", VNull)]).

(** The case mapping on the letters A to Z. *)
Definition ascii_lower (s : jsstring) : jsstring :=
  map (λ c, if (N.leb 65 c && N.leb c 90)%bool then (c + 32)%N else c) s.

Definition list_item (text : string) : element :=
  Element (js "bullet-list-item") None None None None (Some (js text)).

(** Two list items with an element of unknown kind between them. *)
Definition interrupted_list : form :=
  Form (js "cv-form")
    (Some [list_item "Go";
           Element (js "divider") None None None None None;
           list_item "Rust"]).

Definition email_field : element :=
  Element (js "email-input") (Some (js "Email  Address")) None None None None.

End Samples.
Import Samples.

(** * What the functions and the scripts put on the console *)

Module Reports.

Definition white (s : jsstring) : Prop := Forall (λ x, isWhiteSpace x = true) s.

Definition no_text_error : event :=
  console_error [DText (js "Model returned no text.")].

Definition unexpected_format_error (r : option response_t) : event :=
  console_error [DText (js "Unexpected response format from Gemini:"); DResponse r].

(** What a function traces, after the call, when the response has no text
    at the place the scripts read. *)
Definition missing_text_report (f : extractor) (r : option response_t) : list event :=
  match f with
  | CheckCompliance | GenerateUI => [no_text_error]
  | ExtractCook | ExtractStructuredData =>
      match first_part r with
      | None => [unexpected_format_error r]
      | Some _ => caught f TypeError
      end
  end.

Definition is_file_write (ev : event) : bool :=
  match ev with fs_writeFileSync _ _ => true | _ => false end.

Definition count_events (p : event → bool) (tr : list event) : nat :=
  length (filter (λ ev, p ev = true) tr).

(** What a function returns once it has a brace span: [null] when the
    span does not parse or does not pass the schema, the validated value
    otherwise. *)
Definition settled_result (f : extractor) (span : jsstring) : exn + jsvalue :=
  match JSON_parse span with
  | None => inr VNull
  | Some payload =>
      match Zod.parse (schema_of f) payload with
      | OK v => inr v
      | INVALID _ => inr VNull
      end
  end.

(** The last line a script prints: the failure text when the function
    returned [null], the success text with the value otherwise. *)
Definition final_line (success failure : jsstring) (v : jsvalue) : event :=
  match v with
  | VNull => console_log [DText failure]
  | _ => console_log [DText success; DValue v]
  end.

Definition prompt_line (prompt : jsstring) : event :=
  console_log [DText (js "Prompt:"); DText prompt].

(** What [fs.writeFileSync] answers to the one call of the UI script,
    for a given markup. *)
Definition ui_written (writeFileSync : jsstring → jsstring → write_outcome)
           (html : jsstring) : write_outcome :=
  writeFileSync (js "generated-cv-form.html") (htmlDocument html).

(** What the UI script traces after [generateUI] returned a form: the
    last line only when the file was written. *)
Definition ui_report (v : jsvalue) (html : jsstring) (written : write_outcome) :
    list event :=
  [console_log [DText (js "UI JSON Structure:")];
   console_log [DValue v];
   console_log [DText (nl ++ js "Generated HTML:")];
   console_log [DText html];
   fs_writeFileSync (js "generated-cv-form.html") (htmlDocument html)]
  ++ match written with
     | Written => [console_log [DText (nl ++ js "HTML saved to generated-cv-form.html")]]
     | Fails _ => []
     end.

(** How [main] of the UI script ends after the write. *)
Definition ui_result (written : write_outcome) : exn + unit :=
  match written with
  | Written => inr tt
  | Fails code => inl (SystemError code)
  end.

(** The exit status of a script whose [main] ended that way. *)
Definition exit_status (r : exn + unit) : Z :=
  match r with inl _ => 1 | inr _ => 0 end.

End Reports.
Import Reports.

(** * List nesting in the markup *)

Module Markup.

Definition li_open : jsstring := js "    <li>".

(** Reading the pieces from left to right, [inside] telling whether a list
    is open: a list is opened only outside a list and closed only inside
    one, a list item stands inside a list, any other piece stands outside.
    The answer is the state at the end, or [None] when a piece is out of
    place. *)
Fixpoint nesting (inside : bool) (l : list jsstring) : option bool :=
  match l with
  | [] => Some inside
  | x :: r =>
      if jseqb x ul_open then (if inside then None else nesting true r)
      else if jseqb x ul_close then (if inside then nesting false r else None)
      else if startsWith x li_open then (if inside then nesting true r else None)
      else (if inside then None else nesting false r)
  end.

(** A piece that is no list tag and no list item. *)
Definition plain (x : jsstring) : Prop :=
  x ≠ ul_open ∧ x ≠ ul_close ∧ startsWith x li_open = false.

Definition unrecognized_warnings (es : list element) : list event :=
  map unknown_type_warning (filter (λ e, recognized e = false) es).

End Markup.
Import Markup.

Module Replies.

Definition verdict_inside : jsstring :=
  quoted "is_violating" ++ js ":false,"
  ++ quoted "category" ++ js ":null,"
  ++ quoted "explanation_if_violating" ++ js ":null".

Definition response_with (text : jsstring) : option response_t :=
  Some {| candidates :=
            Some [ {| content := Some {| parts := Some [ {| text := Some text |} ] |} |} ] |}.

(** A text input with a name and no label, and the value it is decoded
    from. *)
Definition named_field_value : jsvalue :=
  VObj (list_to_map [(js "type", VStr (js "text-input"));
                     (js "name", VStr (js "email"))]).

Definition named_field : element :=
  Element (js "text-input") None (Some (js "email")) None None None.

(** An answer with a form without elements, and a file system that
    refuses the write. *)
Definition empty_form_text : jsstring :=
  js "{" ++ quoted "type" ++ js ":" ++ quoted "cv-form" ++ js ","
  ++ quoted "elements" ++ js ":[]}".

Definition read_only (file data : jsstring) : write_outcome := Fails (js "EACCES").

End Replies.
Import Replies.

(** * Properties *)

(** ** Searching and slicing strings *)

Section StringFacts.

Implicit Types (s pre post : jsstring) (c x : code_unit) (i found : Z).

Lemma indexOf_from_absent s c i : c ∉ s → indexOf_from s c i = -1.
Proof.
  revert i. induction s as [|x s IH]; intros i Hc; simpl; [done|].
  destruct (N.eqb_spec x c) as [->|_].
  - exfalso. apply Hc. left.
  - apply IH. intros ?. apply Hc. by right.
Qed.

Lemma indexOf_from_shift s c i :
  c ∈ s →
  indexOf_from s c i = i + indexOf s c
  ∧ 0 <= indexOf s c < Z.of_nat (length s)
  ∧ s !! Z.to_nat (indexOf s c) = Some c.
Proof.
  unfold indexOf. revert i.
  induction s as [|x s IH]; intros i Hc; [by apply elem_of_nil in Hc|].
  simpl. destruct (N.eqb_spec x c) as [->|Hne].
  - split; [lia|]. split; [lia|done].
  - apply elem_of_cons in Hc as [->|Hc]; [done|].
    destruct (IH (i + 1) Hc) as (E1 & _ & _).
    destruct (IH (0 + 1) Hc) as (E2 & Hr & Hl).
    rewrite E1, E2. split; [lia|]. split; [lia|].
    replace (Z.to_nat (0 + 1 + indexOf_from s c 0))
      with (S (Z.to_nat (indexOf_from s c 0))) by lia.
    exact Hl.
Qed.

Lemma indexOf_absent s c : c ∉ s → indexOf s c = -1.
Proof. apply indexOf_from_absent. Qed.

Lemma indexOf_minus_one s c : indexOf s c = -1 ↔ c ∉ s.
Proof.
  split; [|apply indexOf_absent].
  intros E Hc. destruct (indexOf_from_shift s c 0 Hc) as (_ & ? & _). lia.
Qed.

Lemma indexOf_from_app_absent pre s c i :
  c ∉ pre →
  indexOf_from (pre ++ s) c i = indexOf_from s c (i + Z.of_nat (length pre)).
Proof.
  revert i. induction pre as [|x pre IH]; intros i Hc; simpl.
  - f_equal. lia.
  - destruct (N.eqb_spec x c) as [->|_].
    + exfalso. apply Hc. left.
    + rewrite IH; [f_equal; lia|]. intros ?. apply Hc. by right.
Qed.

Lemma lastIndexOf_from_app pre s c i found :
  lastIndexOf_from (pre ++ s) c i found
  = lastIndexOf_from s c (i + Z.of_nat (length pre)) (lastIndexOf_from pre c i found).
Proof.
  revert i found. induction pre as [|x pre IH]; intros i found; simpl.
  - f_equal. lia.
  - rewrite IH. f_equal. lia.
Qed.

Lemma lastIndexOf_from_absent s c i found :
  c ∉ s → lastIndexOf_from s c i found = found.
Proof.
  revert i found. induction s as [|x s IH]; intros i found Hc; simpl; [done|].
  destruct (N.eqb_spec x c) as [->|_].
  - exfalso. apply Hc. left.
  - apply IH. intros ?. apply Hc. by right.
Qed.

(** Once the needle has been seen at or after [i], the answer lies in
    the part still to be read whenever the needle occurs there. *)
Lemma lastIndexOf_from_shift s c i found :
  c ∈ s →
  lastIndexOf_from s c i found = i + lastIndexOf s c
  ∧ 0 <= lastIndexOf s c < Z.of_nat (length s)
  ∧ s !! Z.to_nat (lastIndexOf s c) = Some c.
Proof.
  unfold lastIndexOf. revert i found.
  induction s as [|x s IH]; intros i found Hc; [by apply elem_of_nil in Hc|].
  simpl. destruct (decide (c ∈ s)) as [Hin|Hout].
  - destruct (IH (i + 1) (if N.eqb x c then i else found) Hin) as (E1 & _ & _).
    destruct (IH (0 + 1) (if N.eqb x c then 0 else -1) Hin) as (E2 & Hr & Hl).
    rewrite E1, E2. split; [lia|]. split; [lia|].
    replace (Z.to_nat (0 + 1 + lastIndexOf_from s c 0 (-1)))
      with (S (Z.to_nat (lastIndexOf_from s c 0 (-1)))) by lia.
    exact Hl.
  - rewrite !lastIndexOf_from_absent by done.
    apply elem_of_cons in Hc as [->|Hc]; [|done].
    rewrite N.eqb_refl. split; [lia|]. split; [lia|done].
Qed.

Lemma lastIndexOf_minus_one s c : lastIndexOf s c = -1 ↔ c ∉ s.
Proof.
  split.
  - intros E Hc. destruct (lastIndexOf_from_shift s c 0 (-1) Hc) as (_ & ? & _). lia.
  - apply lastIndexOf_from_absent.
Qed.

(** White space in front of and behind a string moves both indices by
    the same amount. *)
Lemma indexOf_framed pre s post c :
  c ∉ pre → c ∈ s →
  indexOf (pre ++ s ++ post) c = Z.of_nat (length pre) + indexOf s c.
Proof.
  intros Hpre Hs. unfold indexOf at 1.
  rewrite indexOf_from_app_absent by done.
  assert (c ∈ s ++ post) as Hsp by (apply elem_of_app; by left).
  destruct (indexOf_from_shift (s ++ post) c (0 + Z.of_nat (length pre)) Hsp)
    as (-> & _ & _).
  f_equal. unfold indexOf.
  revert Hs. clear. generalize 0. induction s as [|x s IH]; intros i Hs.
  - by apply elem_of_nil in Hs.
  - simpl. destruct (N.eqb_spec x c) as [->|Hne]; [done|].
    apply IH. apply elem_of_cons in Hs as [->|Hs]; done.
Qed.

Lemma lastIndexOf_framed pre s post c :
  c ∉ pre → c ∉ post → c ∈ s →
  lastIndexOf (pre ++ s ++ post) c = Z.of_nat (length pre) + lastIndexOf s c.
Proof.
  intros Hpre Hpost Hs. unfold lastIndexOf at 1.
  rewrite !lastIndexOf_from_app.
  rewrite (lastIndexOf_from_absent post) by done.
  rewrite (lastIndexOf_from_absent pre) by done.
  destruct (lastIndexOf_from_shift s c (0 + Z.of_nat (length pre)) (-1) Hs)
    as (-> & _ & _).
  lia.
Qed.

Lemma trimStart_split s :
  ∃ pre, s = pre ++ trimStart s ∧ Forall (λ x, isWhiteSpace x = true) pre.
Proof.
  induction s as [|x s (pre & E & Hpre)]; [by exists []|].
  simpl. destruct (isWhiteSpace x) eqn:Hx.
  - exists (x :: pre). split; [simpl; by f_equal|by constructor].
  - by exists [].
Qed.

Lemma trim_split s :
  ∃ pre post,
    s = pre ++ trim s ++ post
    ∧ Forall (λ x, isWhiteSpace x = true) pre
    ∧ Forall (λ x, isWhiteSpace x = true) post.
Proof.
  destruct (trimStart_split s) as (pre & E1 & Hpre).
  destruct (trimStart_split (rev (trimStart s))) as (q & E2 & Hq).
  exists pre, (rev q). split; [|split; [done|by apply Forall_rev]].
  unfold trim, trimEnd. rewrite <- rev_app_distr, <- E2, rev_involutive.
  exact E1.
Qed.

Lemma brace_not_in_white_space c pre :
  isWhiteSpace c = false → Forall (λ x, isWhiteSpace x = true) pre → c ∉ pre.
Proof.
  intros Hc Hpre Hin. rewrite Forall_forall in Hpre.
  specialize (Hpre c Hin). congruence.
Qed.

End StringFacts.

(** ** The parser does not run out of fuel *)

Section ParserFuel.
Implicit Types (s r : jsstring).

Lemma skip_ws_length s : (length (skip_ws s) <= length s)%nat.
Proof.
  induction s as [|x s IH]; [done|].
  cbn [skip_ws]. destruct (is_json_ws x); cbn [length]; lia.
Qed.

Lemma skip_ws_cons s x r : skip_ws s = x :: r → (length r < length s)%nat.
Proof.
  intros E. pose proof (skip_ws_length s) as H. rewrite E in H. cbn [length] in H. lia.
Qed.

Lemma parse_string_body_length_bounded n :
  ∀ s, (length s <= n)%nat → ∀ body rest,
    parse_string_body s = Some (body, rest) → (length rest < length s)%nat.
Proof.
  induction n as [|n IH]; intros s Hn body rest H.
  - destruct s; [done|cbn [length] in Hn; lia].
  - destruct s as [|x s]; [done|]. cbn [parse_string_body] in H. cbn [length] in *.
    repeat case_match; simplify_eq; cbn [length] in *; try lia;
      match goal with
      | E : parse_string_body ?t = Some _ |- _ => apply IH in E; [lia|cbn [length]; lia]
      end.
Qed.

Lemma parse_string_body_length s body rest :
  parse_string_body s = Some (body, rest) → (length rest < length s)%nat.
Proof. by apply (parse_string_body_length_bounded (length s)). Qed.

Lemma span_digits_length s : (length (span_digits s).2 <= length s)%nat.
Proof.
  induction s as [|x s IH]; [done|].
  cbn [span_digits]. destruct (is_digit x); [|done].
  destruct (span_digits s) as [d rest]. cbn [snd length] in *. lia.
Qed.

Lemma parse_number_length s lit rest :
  parse_number s = Some (lit, rest) → (length rest < length s)%nat.
Proof.
  unfold parse_number. intros H.
  repeat (case_match; simplify_eq; cbn [length] in *);
    repeat match goal with
      | E : span_digits ?t = (_, _) |- _ =>
          let L := fresh in
          pose proof (span_digits_length t) as L; rewrite E in L; cbn [snd] in L; clear E
      end; cbn [length] in *; lia.
Qed.

Lemma fuel_adequate n :
  (∀ s v r, parse_value n s = Some (v, r) →
     ∀ m, (2 * length s + 1 <= m)%nat →
       (length r < length s)%nat ∧ parse_value m s = Some (v, r))
  ∧ (∀ s vs r, parse_elements n s = Some (vs, r) →
       ∀ m, (2 * length s + 2 <= m)%nat →
         (length r < length s)%nat ∧ parse_elements m s = Some (vs, r))
  ∧ (∀ s kvs r, parse_members n s = Some (kvs, r) →
       ∀ m, (2 * length s + 2 <= m)%nat →
         (length r < length s)%nat ∧ parse_members m s = Some (kvs, r)).
Proof.
  induction n as [|n (IHv & IHe & IHm)]; [done|].
  split; [|split].
  - intros s v r H m Hm. destruct m as [|m]; [lia|].
    cbn [parse_value] in H |- *.
    destruct (skip_ws s) as [|x r0] eqn:Ews; [done|].
    pose proof (skip_ws_cons _ _ _ Ews) as Hr0.
    destruct (N.eqb x 123).
    { destruct (skip_ws r0) as [|y r1] eqn:Ews1; [done|].
      pose proof (skip_ws_cons _ _ _ Ews1).
      destruct (N.eqb y 125); [simplify_eq; split; [lia|done]|].
      destruct (parse_members n r0) as [[kvs rest]|] eqn:E; [|done].
      destruct (IHm _ _ _ E m) as [Hl ->]; [lia|]. simplify_eq. split; [lia|done]. }
    destruct (N.eqb x 91).
    { destruct (skip_ws r0) as [|y r1] eqn:Ews1; [done|].
      pose proof (skip_ws_cons _ _ _ Ews1).
      destruct (N.eqb y 93); [simplify_eq; split; [lia|done]|].
      destruct (parse_elements n r0) as [[vs rest]|] eqn:E; [|done].
      destruct (IHe _ _ _ E m) as [Hl ->]; [lia|]. simplify_eq. split; [lia|done]. }
    destruct (N.eqb x 34).
    { destruct (parse_string_body r0) as [[str rest]|] eqn:E; [|done].
      apply parse_string_body_length in E. simplify_eq. split; [lia|done]. }
    destruct (startsWith (x :: r0) (js "true"));
      [simplify_eq; split; [rewrite length_drop; lia|done]|].
    destruct (startsWith (x :: r0) (js "false"));
      [simplify_eq; split; [rewrite length_drop; lia|done]|].
    destruct (startsWith (x :: r0) (js "null"));
      [simplify_eq; split; [rewrite length_drop; lia|done]|].
    destruct (parse_number (x :: r0)) as [[lit rest]|] eqn:En; [|done].
    apply parse_number_length in En. cbn [length] in En.
    simplify_eq. split; [lia|done].
  - intros s vs r H m Hm. destruct m as [|m]; [lia|].
    cbn [parse_elements] in H |- *.
    destruct (parse_value n s) as [[v r0]|] eqn:E; [|done].
    destruct (IHv _ _ _ E m) as [Hl ->]; [lia|].
    destruct (skip_ws r0) as [|y r1] eqn:Ews; [done|].
    pose proof (skip_ws_cons _ _ _ Ews).
    destruct (N.eqb y 44).
    { destruct (parse_elements n r1) as [[vs' rest]|] eqn:E'; [|done].
      destruct (IHe _ _ _ E' m) as [Hl' ->]; [lia|]. simplify_eq. split; [lia|done]. }
    destruct (N.eqb y 93); [|done]. simplify_eq. split; [lia|done].
  - intros s kvs r H m Hm. destruct m as [|m]; [lia|].
    cbn [parse_members] in H |- *.
    destruct (skip_ws s) as [|q r0] eqn:Ews; [done|].
    pose proof (skip_ws_cons _ _ _ Ews).
    destruct (N.eqb q 34); [|done].
    destruct (parse_string_body r0) as [[k r1]|] eqn:Ek; [|done].
    pose proof (parse_string_body_length _ _ _ Ek).
    destruct (skip_ws r1) as [|c r2] eqn:Ews1; [done|].
    pose proof (skip_ws_cons _ _ _ Ews1).
    destruct (N.eqb c 58); [|done].
    destruct (parse_value n r2) as [[v r3]|] eqn:E; [|done].
    destruct (IHv _ _ _ E m) as [Hl ->]; [lia|].
    destruct (skip_ws r3) as [|y r4] eqn:Ews3; [done|].
    pose proof (skip_ws_cons _ _ _ Ews3).
    destruct (N.eqb y 44).
    { destruct (parse_members n r4) as [[kvs' rest]|] eqn:E'; [|done].
      destruct (IHm _ _ _ E' m) as [Hl' ->]; [lia|]. simplify_eq. split; [lia|done]. }
    destruct (N.eqb y 125); [|done]. simplify_eq. split; [lia|done].
Qed.

(** Fuel never decides what [JSON_parse] answers: whatever the descent
    finds with some amount of fuel, [JSON_parse] finds. *)
Lemma JSON_parse_fuel n text v rest :
  parse_value n text = Some (v, rest) →
  JSON_parse text = match skip_ws rest with [] => Some v | _ :: _ => None end.
Proof.
  intros H. unfold JSON_parse.
  destruct (fuel_adequate n) as (Hv & _ & _).
  destruct (Hv _ _ _ H (2 * length text + 2)%nat) as [_ ->]; [lia|done].
Qed.

End ParserFuel.

(** ** Facts about the validators *)

Section ZodFacts.

Implicit Types (s : schema) (v r : jsvalue) (p : list path_item)
  (props acc : gmap jsstring jsvalue) (k : jsstring).

Lemma forallb_elem_false {A} (f : A → bool) (l : list A) x :
  x ∈ l → f x = false → forallb f l = false.
Proof.
  induction l as [|y l IH]; intros Hx Hf; [by apply elem_of_nil in Hx|].
  simpl. apply elem_of_cons in Hx as [->|Hx].
  - by rewrite Hf.
  - rewrite IH by done. apply andb_false_r.
Qed.

Lemma forallb_elem_true {A} (f : A → bool) (l : list A) x :
  forallb f l = true → x ∈ l → f x = true.
Proof.
  intros Hall Hx. rewrite forallb_forall in Hall.
  apply Hall. by apply list_elem_of_In.
Qed.

Lemma issues_in_concat {A} (f : A → list issue) (l : list A) x i :
  x ∈ l → i ∈ f x → i ∈ concat (map f l).
Proof.
  induction l as [|y l IH]; intros Hx Hi; [by apply elem_of_nil in Hx|].
  simpl. apply elem_of_app. apply elem_of_cons in Hx as [->|Hx]; auto.
Qed.

(** *** Arrays *)

Lemma mergeArray_invalid (results : list parse_return) L i :
  INVALID L ∈ results → i ∈ L →
  ∃ L', mergeArray results = INVALID L' ∧ i ∈ L'.
Proof.
  intros Hin Hi. unfold mergeArray.
  rewrite (forallb_elem_false is_ok results (INVALID L)) by done.
  eexists. split; [done|]. by apply (issues_in_concat issues_of results (INVALID L)).
Qed.

Lemma mergeArray_ok (results : list parse_return) r :
  mergeArray results = OK r →
  forallb is_ok results = true ∧ r = VArr (map value_of results).
Proof.
  unfold mergeArray. destruct (forallb is_ok results); [|done].
  intros [= <-]. done.
Qed.

Lemma mergeArray_same (f : nat → jsvalue → parse_return) (items : list jsvalue) :
  (∀ n x, items !! n = Some x → f n x = OK x) →
  mergeArray (imap f items) = OK (VArr items).
Proof.
  intros Hf.
  assert (imap f items = map OK items) as ->.
  { revert f Hf. induction items as [|x items IH]; intros f Hf; [done|].
    simpl. rewrite (Hf 0%nat x) by done. f_equal.
    apply IH. intros n y Hn. apply (Hf (S n)). exact Hn. }
  clear Hf. unfold mergeArray.
  assert (forallb is_ok (map OK items) = true) as ->
    by (induction items as [|x items IH]; simpl; [done|exact IH]).
  do 2 f_equal. induction items as [|x items IH]; simpl; [done|by rewrite IH].
Qed.

(** *** Objects *)

Lemma mergeObject_invalid (pairs : list pair) k a L i :
  (k, a, INVALID L) ∈ pairs → i ∈ L →
  ∃ L', mergeObject pairs = INVALID L' ∧ i ∈ L'.
Proof.
  intros Hin Hi. unfold mergeObject.
  erewrite forallb_elem_false; [|exact Hin|done].
  eexists. split; [done|].
  by apply (issues_in_concat (λ q : pair, issues_of q.2) pairs (k, a, INVALID L)).
Qed.

Lemma mergeObject_ok (pairs : list pair) r :
  mergeObject pairs = OK r →
  forallb (λ q : pair, is_ok q.2) pairs = true ∧ r = VObj (foldl assign ∅ pairs).
Proof.
  unfold mergeObject. intros H.
  match type of H with (if ?c then _ else _) = _ => destruct c eqn:E end; [|done].
  injection H as <-. split; [exact E|done].
Qed.

Lemma assign_lookup_ne acc (q : pair) k :
  q.1.1 ≠ k → assign acc q !! k = acc !! k.
Proof.
  destruct q as [[k' a] res]. simpl. intros Hne.
  destruct (value_of res), a; by rewrite ?lookup_insert_ne.
Qed.

Lemma assign_get acc k a res :
  acc !! k = None → get (assign acc (k, a, res)) k = value_of res.
Proof.
  intros Hacc. unfold get. simpl.
  destruct (value_of res), a; rewrite ?lookup_insert_eq, ?Hacc; done.
Qed.

Lemma fold_assign_other (pairs : list pair) acc k :
  k ∉ pairs.*1.*1 → foldl assign acc pairs !! k = acc !! k.
Proof.
  revert acc. induction pairs as [|q pairs IH]; intros acc Hk; [done|].
  simpl. rewrite IH.
  - apply assign_lookup_ne. intros E. apply Hk. simpl. rewrite E. left.
  - intros ?. apply Hk. simpl. by right.
Qed.

(** With distinct keys, reading a shape key from the merged object gives
    what the validator of that key answered. *)
Lemma fold_assign_get (pairs : list pair) acc k a res :
  NoDup pairs.*1.*1 → (k, a, res) ∈ pairs → acc !! k = None →
  get (foldl assign acc pairs) k = value_of res.
Proof.
  revert acc. induction pairs as [|q pairs IH]; intros acc Hnd Hin Hacc.
  - by apply elem_of_nil in Hin.
  - simpl in Hnd. apply NoDup_cons in Hnd as [Hq Hnd].
    apply elem_of_cons in Hin as [<-|Hin]; simpl.
    + unfold get. rewrite fold_assign_other by exact Hq.
      apply (assign_get acc k a res Hacc).
    + apply IH; [done..|].
      rewrite assign_lookup_ne; [done|].
      intros E. apply Hq. rewrite E.
      apply list_elem_of_fmap. exists (k, a).
      split; [done|]. apply list_elem_of_fmap. by exists (k, a, res).
Qed.

Lemma assign_props props acc k :
  assign acc (k, has props k, OK (get props k))
  = match props !! k with Some v => <[k := v]> acc | None => acc end.
Proof.
  unfold assign, has, get. simpl.
  destruct (props !! k) as [v|] eqn:E; simpl; [by destruct v|done].
Qed.

(** Each key that the value has and the shape declares is copied; the
    keys the shape does not declare are left out. *)
Lemma fold_assign_props (shape : list (jsstring * schema)) props acc k :
  foldl assign acc
    (map (λ ks : jsstring * schema, (ks.1, has props ks.1, OK (get props ks.1))) shape)
    !! k
  = match props !! k with
    | Some v => if bool_decide (k ∈ shape.*1) then Some v else acc !! k
    | None => acc !! k
    end.
Proof.
  revert acc. induction shape as [|[k0 s0] shape IH]; intros acc.
  - simpl. by destruct (props !! k).
  - cbn [map foldl fst snd fmap list_fmap]. rewrite IH, assign_props.
    destruct (props !! k) as [v|] eqn:Ek.
    + destruct (decide (k = k0)) as [->|Hne].
      * rewrite Ek, lookup_insert_eq.
        rewrite (bool_decide_eq_true_2 (k0 ∈ k0 :: shape.*1)) by left.
        by case_bool_decide.
      * assert (bool_decide (k ∈ k0 :: shape.*1) = bool_decide (k ∈ shape.*1)) as ->.
        { apply bool_decide_ext. rewrite elem_of_cons. intuition congruence. }
        case_bool_decide; [done|].
        destruct (props !! k0); by rewrite ?lookup_insert_ne.
    + destruct (decide (k = k0)) as [->|Hne].
      * by rewrite Ek.
      * destruct (props !! k0); by rewrite ?lookup_insert_ne.
Qed.

End ZodFacts.

Section ZodSoundness.

Implicit Types (s : schema) (v r : jsvalue) (p : list path_item).

(** A value that matches its schema and carries only declared keys comes
    back from the validator unchanged. *)
Lemma zparse_same s :
  ∀ p v, matches s v = true → only_declared_keys s v = true → zparse s p v = OK v.
Proof.
  induction s as [| |options|expected|inner IH|inner IH|element IH|shape IH]
    using schema_rect_nested; intros p v Hm Hk.
  - by destruct v.
  - by destruct v.
  - destruct v; try done. simpl in *. by rewrite Hm.
  - destruct v; try done. simpl in *. by rewrite Hm.
  - destruct v; try done; by apply IH.
  - destruct v; try done; by apply IH.
  - destruct v as [| | | | |items|]; try done. simpl in *.
    apply mergeArray_same. intros n x Hn.
    apply IH; eapply forallb_elem_true; eauto using list_elem_of_lookup_2.
  - destruct v as [| | | | | |props]; try done. simpl in *.
    apply andb_prop in Hk as [Hdom Hk]. apply bool_decide_eq_true in Hdom.
    assert (map (λ ks : jsstring * schema,
                   (ks.1, has props ks.1, zparse ks.2 (p ++ [Key ks.1]) (get props ks.1)))
              shape
            = map (λ ks : jsstring * schema,
                     (ks.1, has props ks.1, OK (get props ks.1))) shape) as ->.
    { apply map_ext_in. intros ks Hin. f_equal.
      apply list_elem_of_In in Hin. rewrite Forall_forall in IH.
      apply (IH ks Hin).
      - apply (forallb_elem_true _ _ ks Hm Hin).
      - apply (forallb_elem_true _ _ ks Hk Hin). }
    unfold mergeObject.
    match goal with |- (if ?c then _ else _) = _ => assert (c = true) as -> end.
    { clear. induction shape as [|ks shape IHs]; simpl; [done|exact IHs]. }
    do 2 f_equal. apply map_eq. intros k.
    rewrite fold_assign_props, lookup_empty.
    destruct (props !! k) as [x|] eqn:Ek; [|done].
    rewrite bool_decide_eq_true_2; [done|].
    assert (k ∈ dom props) as Hd by (apply elem_of_dom; eauto).
    apply Hdom in Hd. by apply elem_of_list_to_set in Hd.
Qed.

(** What the validator accepts, it answers with a value that matches the
    schema. *)
Lemma zparse_matches s :
  wf s = true → ∀ p v r, zparse s p v = OK r → matches s r = true.
Proof.
  induction s as [| |options|expected|inner IH|inner IH|element IH|shape IH]
    using schema_rect_nested; intros Hwf p v r Hr.
  - destruct v; simpl in Hr; try done. by injection Hr as <-.
  - destruct v; simpl in Hr; try done. by injection Hr as <-.
  - destruct v; simpl in Hr; try done.
    destruct (bool_decide _) eqn:E in Hr; [|done]. injection Hr as <-. exact E.
  - destruct v; simpl in Hr; try done.
    destruct (bool_decide _) eqn:E in Hr; [|done]. injection Hr as <-. exact E.
  - assert (∀ r', matches inner r' = true → matches (ZNullable inner) r' = true) as Hup
      by (intros []; done).
    destruct v; simpl in Hr; try (by injection Hr as <-); eauto.
  - assert (∀ r', matches inner r' = true → matches (ZOptional inner) r' = true) as Hup
      by (intros []; done).
    destruct v; simpl in Hr; try (by injection Hr as <-); eauto.
  - destruct v as [| | | | |items|]; simpl in Hr; try done.
    apply mergeArray_ok in Hr as [Hok ->]. simpl.
    apply forallb_forall. intros x Hx. apply in_map_iff in Hx as (res & <- & Hres).
    apply list_elem_of_In, list_elem_of_lookup in Hres as (n & Hn).
    rewrite list_lookup_imap in Hn.
    destruct (items !! n) as [y|] eqn:Hy; [|done]. injection Hn as Hn.
    destruct res as [r'|L].
    + simpl. eapply (IH Hwf). exact Hn.
    + assert (is_ok (INVALID L) = true); [|done].
      eapply forallb_elem_true; [exact Hok|].
      apply list_elem_of_lookup. exists n. by rewrite list_lookup_imap, Hy, <- Hn.
  - destruct v as [| | | | | |props]; simpl in Hr; try done.
    apply mergeObject_ok in Hr as [Hok ->]. simpl in *.
    apply andb_prop in Hwf as [Hnd Hwf]. apply bool_decide_eq_true in Hnd.
    apply forallb_forall. intros ks Hks. apply list_elem_of_In in Hks.
    set (g := λ ks0 : jsstring * schema,
           (ks0.1, has props ks0.1, zparse ks0.2 (p ++ [Key ks0.1]) (get props ks0.1))) in *.
    assert (g ks ∈ map g shape) as Hg by (apply list_elem_of_fmap; eauto).
    rewrite (fold_assign_get (map g shape) ∅ ks.1 (has props ks.1) (g ks).2).
    + pose proof (forallb_elem_true _ _ _ Hok Hg) as Hres. simpl in Hres |- *.
      destruct (zparse ks.2 (p ++ [Key ks.1]) (get props ks.1)) as [r'|] eqn:E; [|done].
      rewrite Forall_forall in IH. eapply (IH ks Hks).
      * apply (forallb_elem_true _ _ ks Hwf Hks).
      * exact E.
    + assert ((map g shape).*1.*1 = shape.*1) as ->; [|done].
      clear. induction shape as [|ks shape IHs]; simpl; [done|by f_equal].
    + exact Hg.
    + apply lookup_empty.
Qed.

(** Every violation is reported: the validator fails and the issue, with
    its path, is among those it carries. *)
Lemma zparse_reports s p v i :
  violation s p v i → ∃ L, zparse s p v = INVALID L ∧ i ∈ L.
Proof.
  induction 1 as [p v Hv|p v Hv|options p v Hv|options p x Hx|expected p v Hv
                 |element p v Hv|shape p v Hv
                 |inner p v i Hv _ (L & E & Hi)|inner p v i Hv _ (L & E & Hi)
                 |element p items n x i Hn _ (L & E & Hi)
                 |shape p props k s i Hks _ (L & E & Hi)].
  - destruct v; try done; eexists; (split; [done|left]).
  - destruct v; try done; eexists; (split; [done|left]).
  - destruct v; try done; eexists; (split; [done|left]).
  - simpl. rewrite bool_decide_eq_false_2 by done. eexists; (split; [done|left]).
  - destruct v as [| | | |x| |]; try (eexists; (split; [done|left])).
    simpl. rewrite bool_decide_eq_false_2 by congruence.
    eexists; (split; [done|left]).
  - destruct v; try done; eexists; (split; [done|left]).
  - destruct v; try done; eexists; (split; [done|left]).
  - destruct v; try done; simpl; eauto.
  - destruct v; try done; simpl; eauto.
  - simpl. apply (mergeArray_invalid _ L); [|done].
    apply list_elem_of_lookup. exists n. by rewrite list_lookup_imap, Hn, <- E.
  - simpl. apply (mergeObject_invalid _ k (has props k) L); [|done].
    apply list_elem_of_fmap. exists (k, s). by rewrite <- E.
Qed.

End ZodSoundness.

(** ** Facts about the extraction functions *)

Section PipelineFacts.

Variable generateContent : jsstring → outcome.

Implicit Types (f : extractor) (text prompt : jsstring) (S : schema).

Lemma guard_no_object text :
  ((indexOf text lbrace =? -1) || (lastIndexOf text rbrace =? -1)
   || (indexOf text lbrace >=? lastIndexOf text rbrace) = true)
  ↔ no_object text.
Proof.
  unfold no_object.
  rewrite !orb_true_iff, !Z.eqb_eq, Z.geb_le, indexOf_minus_one, lastIndexOf_minus_one.
  split; [intros [[?|?]|?]|intros [?|[?|?]]]; auto; right; lia || (right; lia).
Qed.

Lemma locate_no_object S text :
  no_object text →
  locate_parse_validate S text = ([no_json_error text], inr VNull).
Proof.
  intros H. apply guard_no_object in H.
  unfold locate_parse_validate. rewrite H. reflexivity.
Qed.

Lemma locate_object S text :
  ¬ no_object text →
  locate_parse_validate S text
  = match JSON_parse (json_slice text) with
    | None =>
        ([call_JSON_parse (json_slice text); malformed_error (json_slice text)],
         inr VNull)
    | Some payload =>
        match Zod.parse S payload with
        | OK v => ([call_JSON_parse (json_slice text)], inr v)
        | INVALID issues => ([call_JSON_parse (json_slice text)], inl (ZodError issues))
        end
    end.
Proof.
  intros H. rewrite <- guard_no_object in H. apply not_true_is_false in H.
  unfold locate_parse_validate. rewrite H. fold (json_slice text).
  destruct (JSON_parse (json_slice text)) as [payload|]; [|reflexivity].
  destruct (Zod.parse S payload); reflexivity.
Qed.

Lemma text_of_first_part (r : option response_t) text :
  text_of r = Some text →
  ∃ part, first_part r = Some part ∧ Effects.text part = Some text.
Proof.
  unfold text_of, first_part. destruct r as [[cs]|]; simpl; [|done].
  destruct cs as [[|[ct] ?]|]; simpl; try done.
  destruct ct as [[ps]|]; simpl; try done.
  destruct ps as [[|part ?]|]; simpl; try done. eauto.
Qed.

Lemma run_text f prompt r text :
  generateContent prompt = Resolves r →
  text_of r = Some text →
  (empty_is_no_text f = true → text ≠ []) →
  run f generateContent prompt
  = settle (prelude f prompt text) (caught f)
      (locate_parse_validate (schema_of f) (text_seen f text)).
Proof.
  intros Hg Ht Hne.
  destruct (text_of_first_part r text Ht) as (part & Hp & Hpt).
  destruct f; simpl;
    unfold checkCompliance, extractCook, generateUI, extractStructuredData,
      checked_trimmed_text, await_response;
    rewrite Hg; simpl; rewrite ?Ht, ?Hp, ?Hpt; simpl.
  all: try (destruct text as [|c text]; [by specialize (Hne eq_refl)|]).
  all: match goal with
       | |- context [locate_parse_validate ?S ?t] =>
           destruct (locate_parse_validate S t) as [tr [e|v]]
       end; simpl; try destruct e; reflexivity.
Qed.

Lemma run_rejected f prompt message :
  generateContent prompt = Rejects message →
  run f generateContent prompt
  = (call_generateContent prompt :: caught f (TransportError message), inr VNull).
Proof.
  intros Hg.
  destruct f; simpl;
    unfold checkCompliance, extractCook, generateUI, extractStructuredData,
      await_response;
    rewrite Hg; reflexivity.
Qed.

(** A response without text, or (for the two functions that test
    [!text]) with the empty text: an error is traced, [null] is
    returned, and neither the braces nor the parser are consulted. *)
Lemma run_no_text f prompt r :
  generateContent prompt = Resolves r →
  text_of r = None ∨ (empty_is_no_text f = true ∧ text_of r = Some []) →
  ∃ ev, is_error ev = true
        ∧ run f generateContent prompt = ([call_generateContent prompt; ev], inr VNull).
Proof.
  intros Hg Ht.
  destruct f; simpl;
    unfold checkCompliance, extractCook, generateUI, extractStructuredData,
      checked_trimmed_text, await_response;
    rewrite Hg; simpl.
  1, 3: destruct Ht as [->|[_ ->]]; simpl; eexists; (split; [|reflexivity]); done.
  all: destruct Ht as [Ht|[? _]]; [|done].
  all: destruct (first_part r) as [part|] eqn:Hp; simpl;
    [|eexists; (split; [|reflexivity]); done].
  all: destruct (text part) as [t|] eqn:Hpt; simpl;
    [|eexists; (split; [|reflexivity]); done].
  all: exfalso; revert Ht Hp Hpt; unfold text_of, first_part.
  all: destruct r as [[cs]|]; simpl; [|done].
  all: destruct cs as [[|[ct] ?]|]; simpl; try done.
  all: destruct ct as [[ps]|]; simpl; try done.
  all: destruct ps as [[|q ?]|]; simpl; try done.
  all: intros ? [= ->]; congruence.
Qed.

Lemma no_object_trim text : no_object text → no_object (trim text).
Proof.
  destruct (trim_split text) as (pre & post & E & Hpre & Hpost).
  remember (trim text) as core eqn:Hcore. clear Hcore. subst text.
  assert (lbrace ∉ pre) by (by apply brace_not_in_white_space).
  assert (rbrace ∉ pre) by (by apply brace_not_in_white_space).
  assert (rbrace ∉ post) by (by apply brace_not_in_white_space).
  unfold no_object. rewrite !elem_of_app.
  destruct (decide (lbrace ∈ core)) as [Hl|Hl]; [|by left].
  destruct (decide (rbrace ∈ core)) as [Hr|Hr]; [|by right; left].
  intros [Hn|[Hn|Hn]]; [exfalso; apply Hn; auto..|].
  right; right.
  rewrite indexOf_framed, lastIndexOf_framed in Hn by done. lia.
Qed.

Lemma no_object_seen f text : no_object text → no_object (text_seen f text).
Proof. destruct f; simpl; auto using no_object_trim. Qed.

End PipelineFacts.

(** ** Facts about the renderer *)

Section RenderFacts.

Variable toLowerCase : jsstring → jsstring.

Implicit Types (e : element) (es : list element) (st : state)
  (h : list jsstring) (b : bool) (c : list event).

Local Abbreviation step := (render_element toLowerCase).

Lemma append_shift h c st x : append (shift h c st) x = shift h c (append st x).
Proof. unfold append, shift. cbn [html inList console]. by rewrite app_assoc. Qed.

Lemma append_if_shift h c st (t : bool) x :
  append_if t (shift h c st) x = shift h c (append_if t st x).
Proof. destruct t; [apply append_shift|done]. Qed.

Lemma closeList_shift h c st : closeList (shift h c st) = shift h c (closeList st).
Proof.
  destruct st as [h0 [] c0]; unfold closeList, shift; cbn [html inList console];
    by rewrite ?app_assoc.
Qed.

Lemma render_input_shift h c st e :
  render_input toLowerCase (shift h c st) e = shift h c (render_input toLowerCase st e).
Proof.
  unfold render_input.
  rewrite closeList_shift, append_shift, append_if_shift.
  destruct (jseqb (type e) (js "textarea"));
    by rewrite append_shift, !append_if_shift, !append_shift.
Qed.

(** The renderer only ever appends: what a step adds does not depend on
    what was appended before. *)
Lemma render_element_shift h c st e :
  step (shift h c st) e = shift h c (step st e).
Proof.
  unfold render_element.
  destruct (jseqb (type e) (js "section-header")).
  { by rewrite closeList_shift, append_shift. }
  destruct (is_input_like (type e)).
  { apply render_input_shift. }
  destruct (jseqb (type e) (js "bullet-list-item")).
  { destruct st as [h0 [] c0]; unfold shift, append; cbn [html inList console];
      by rewrite <- ?app_assoc. }
  destruct (jseqb (type e) (js "submit-button")).
  { by rewrite closeList_shift, append_shift, append_if_shift, append_shift. }
  unfold shift. cbn [html inList console]. by rewrite app_assoc.
Qed.

Lemma foldl_shift h c st es :
  foldl step (shift h c st) es = shift h c (foldl step st es).
Proof.
  revert st. induction es as [|e es IH]; intros st; [done|].
  cbn [foldl]. by rewrite render_element_shift, IH.
Qed.

(** *** The kinds of elements *)

Lemma kind_cases e : kind_of_element e.
Proof.
  destruct e as [t l n r p x].
  destruct (decide (t = js "section-header")) as [->|N1]; [by apply is_heading|].
  destruct (decide (t = js "text-input")) as [->|N2]; [by apply is_field|].
  destruct (decide (t = js "textarea")) as [->|N3]; [by apply is_field|].
  destruct (decide (t = js "date-input")) as [->|N4]; [by apply is_field|].
  destruct (decide (t = js "email-input")) as [->|N5]; [by apply is_field|].
  destruct (decide (t = js "phone-input")) as [->|N6]; [by apply is_field|].
  destruct (decide (t = js "url-input")) as [->|N7]; [by apply is_field|].
  destruct (decide (t = js "bullet-list-item")) as [->|N8]; [by apply is_item|].
  destruct (decide (t = js "submit-button")) as [->|N9]; [by apply is_submit|].
  apply is_unrecognized;
    unfold is_input_like, is_list_item, recognized, jseqb, element_types;
    cbn [type]; rewrite ?bool_decide_eq_false_2; try done.
  rewrite !elem_of_cons, elem_of_nil. intuition.
Qed.

(** *** One step of the loop, kind by kind *)

Lemma state_as_shift h b c : State h b c = shift h c (State [] b []).
Proof. unfold shift. cbn [html inList console]. by rewrite !app_nil_r. Qed.

Lemma closeList_state h b c :
  closeList (State h b c)
  = shift (h ++ if b then [ul_close] else []) c (State [] false []).
Proof.
  destruct b; unfold closeList, shift; cbn [html inList console];
    by rewrite !app_nil_r.
Qed.

Lemma closeList_idemp st : closeList (closeList st) = closeList st.
Proof. by destruct st as [h [] c]. Qed.

Lemma step_unrecognized h b c e :
  recognized e = false →
  step (State h b c) e = State h b (c ++ [unknown_type_warning e]).
Proof.
  intros Hr. destruct (kind_cases e) as [| | | |H1 H2 H3 H4 _]; try congruence.
  unfold render_element. unfold is_list_item in H3. by rewrite H1, H2, H3, H4.
Qed.

Lemma step_list_item h b c e :
  is_list_item e = true →
  step (State h b c) e
  = State (h ++ (if b then [] else [ul_open]) ++ [item e]) true c.
Proof.
  intros Hi. destruct (kind_cases e) as [| |H1 H2 _ _| |]; try congruence.
  unfold render_element. unfold is_list_item in Hi. rewrite H1, H2, Hi.
  destruct b; unfold append, item; cbn [html inList console];
    by rewrite <- ?app_assoc.
Qed.

(** A recognized element that is not a list item first closes an open
    list, then appends its own block. *)
Lemma step_closes st e :
  recognized e = true → is_list_item e = false →
  step st e = step (closeList st) e
  ∧ inList (step st e) = false
  ∧ console (step st e) = console st.
Proof.
  intros Hr Hi.
  destruct (kind_cases e) as [H1 _ _|H1 H2 _ _| |H1 H2 H3 H4 _|]; try congruence;
    unfold render_element, render_input; unfold is_list_item in *;
    rewrite ?H1, ?H2, ?H3, ?H4, ?closeList_idemp.
  - split; [done|]. by destruct st as [h [] c].
  - split; [done|].
    destruct st as [h [] c]; destruct (jseqb (type e) (js "textarea"));
      unfold append_if; repeat case_match; done.
  - split; [done|].
    destruct st as [h [] c]; unfold append_if; repeat case_match; done.
Qed.

Lemma step_block h b c e :
  recognized e = true → is_list_item e = false →
  step (State h b c) e
  = State (h ++ (if b then [ul_close] else []) ++ block toLowerCase e) false c.
Proof.
  intros Hr Hi.
  destruct (step_closes (State h b c) e Hr Hi) as (-> & _ & _).
  destruct (step_closes (State [] false []) e Hr Hi) as (_ & Hin & Hc).
  rewrite closeList_state, render_element_shift.
  unfold shift, block. rewrite Hin, Hc, app_nil_r. by rewrite <- app_assoc.
Qed.

(** *** The whole loop *)

Local Abbreviation stream := (RenderSpec.stream toLowerCase).
Local Abbreviation block := (RenderSpec.block toLowerCase).

Lemma after_elements_foldl ui :
  after_elements toLowerCase ui = foldl step (initial) (elements_list ui).
Proof.
  unfold after_elements, elements_list. by destruct (elements ui) as [[|e es]|].
Qed.

Lemma closed_foldl h b c es :
  html (closeList (foldl step (State h b c) es)) = h ++ stream b es.
Proof. by rewrite state_as_shift, foldl_shift, closeList_shift. Qed.

Lemma pieces_stream ui :
  pieces toLowerCase ui = [form_open] ++ stream false (elements_list ui) ++ [form_close].
Proof.
  unfold pieces. rewrite after_elements_foldl. unfold initial.
  by rewrite closed_foldl, <- app_assoc.
Qed.

Lemma stream_nil b : stream b [] = if b then [ul_close] else [].
Proof. by destruct b. Qed.

Lemma stream_unrecognized b e es :
  recognized e = false → stream b (e :: es) = stream b es.
Proof.
  intros Hr. unfold RenderSpec.stream at 1. cbn [foldl].
  rewrite step_unrecognized by done. by rewrite closed_foldl.
Qed.

Lemma stream_list_item b e es :
  is_list_item e = true →
  stream b (e :: es) = (if b then [] else [ul_open]) ++ [item e] ++ stream true es.
Proof.
  intros Hi. unfold RenderSpec.stream at 1. cbn [foldl].
  rewrite step_list_item by done. rewrite closed_foldl.
  by rewrite app_nil_l, <- !app_assoc.
Qed.

Lemma stream_block b e es :
  recognized e = true → is_list_item e = false →
  stream b (e :: es) = (if b then [ul_close] else []) ++ block e ++ stream false es.
Proof.
  intros Hr Hi. unfold RenderSpec.stream at 1. cbn [foldl].
  rewrite step_block by done. rewrite closed_foldl.
  by rewrite app_nil_l, <- !app_assoc.
Qed.

Lemma stream_filter b es :
  stream b es = stream b (filter (λ e, recognized e = true) es).
Proof.
  induction es as [|e es IH] in b |- *; [done|].
  destruct (recognized e) eqn:Hr.
  - rewrite filter_cons_True by done.
    destruct (is_list_item e) eqn:Hi.
    + by rewrite !stream_list_item, IH.
    + by rewrite !stream_block, IH.
  - rewrite filter_cons_False by congruence. by rewrite stream_unrecognized.
Qed.

(** On recognized elements the loop produces the grouped markup: started
    outside a list, the groups one after the other; started inside a
    list, the rest of the current run, its closing tag, then the other
    groups. *)
Lemma stream_runs es :
  Forall (λ e, recognized e = true) es →
  stream false es = concat (map (group_pieces toLowerCase) (runs es))
  ∧ stream true es
    = match runs es with
      | inl run :: groups =>
          map item run ++ [ul_close] ++ concat (map (group_pieces toLowerCase) groups)
      | groups => ul_close :: concat (map (group_pieces toLowerCase) groups)
      end.
Proof.
  induction 1 as [|e es Hr _ [IHf IHt]]; [done|].
  cbn [runs]. destruct (is_list_item e) eqn:Hi.
  - rewrite !stream_list_item, IHt by done.
    destruct (runs es) as [|[run|e'] groups]; cbn [map concat group_pieces];
      split; by rewrite <- ?app_assoc.
  - rewrite !stream_block, IHf by done. by cbn [map concat group_pieces].
Qed.

Lemma filter_recognized_all es :
  Forall (λ e, recognized e = true) (filter (λ e, recognized e = true) es).
Proof.
  apply Forall_forall. intros e He. by apply list_elem_of_filter in He as [? _].
Qed.

Lemma pieces_grouped ui :
  pieces toLowerCase ui
  = grouped_pieces toLowerCase (filter (λ e, recognized e = true) (elements_list ui)).
Proof.
  rewrite pieces_stream, stream_filter. unfold grouped_pieces.
  by destruct (stream_runs _ (filter_recognized_all (elements_list ui))) as [-> _].
Qed.

(** *** List tags are only appended by the list logic *)

Local Ltac differs :=
  split; intros Heq; unfold ul_open, ul_close, nl, dq in Heq;
  cbn in Heq; discriminate Heq.

Lemma append_clean st x :
  Forall no_list_tag (html st) → no_list_tag x → Forall no_list_tag (html (append st x)).
Proof. intros H Hx. unfold append. cbn [html]. apply Forall_app. auto. Qed.

Lemma append_if_clean (t : bool) st x :
  Forall no_list_tag (html st) → no_list_tag x →
  Forall no_list_tag (html (append_if t st x)).
Proof. destruct t; [apply append_clean|done]. Qed.

Lemma item_no_list_tag e : no_list_tag (item e).
Proof. unfold item. differs. Qed.

Lemma block_clean e : is_list_item e = false → Forall no_list_tag (block e).
Proof.
  intros Hi. unfold RenderSpec.block.
  destruct (kind_cases e) as [H1 _ _|H1 H2 _ _| |H1 H2 H3 H4 _|H1 H2 H3 H4 _];
    try congruence;
    unfold render_element, render_input; unfold is_list_item in *;
    rewrite ?H1, ?H2, ?H3, ?H4; cbn [closeList inList].
  - apply append_clean; [by constructor|differs].
  - apply append_clean; [|differs].
    destruct (jseqb (type e) (js "textarea"));
      repeat (first [apply append_clean | apply append_if_clean]; [|differs]);
      by constructor.
  - repeat (first [apply append_clean | apply append_if_clean]; [|differs]).
    by constructor.
  - by constructor.
Qed.

Lemma count_app x (l1 l2 : list jsstring) :
  count x (l1 ++ l2) = (count x l1 + count x l2)%nat.
Proof. unfold count. by rewrite filter_app, length_app. Qed.

Lemma count_clean x (l : list jsstring) :
  Forall (λ y, y ≠ x) l → count x l = 0%nat.
Proof.
  unfold count. induction 1 as [|y l Hy _ IH]; [done|].
  by rewrite filter_cons_False.
Qed.

Lemma count_block e :
  is_list_item e = false →
  count ul_open (block e) = 0%nat ∧ count ul_close (block e) = 0%nat.
Proof.
  intros Hi. pose proof (block_clean e Hi) as Hc.
  split; apply count_clean; eapply Forall_impl; eauto; by intros ? [? ?].
Qed.

Lemma count_nil x : count x [] = 0%nat.
Proof. done. Qed.

Lemma count_one x y : count x [y] = if decide (y = x) then 1%nat else 0%nat.
Proof. unfold count. by rewrite filter_cons, filter_nil; case_decide. Qed.

(** Every list the loop opens is closed: started inside a list, the
    stream closes one list more than it opens. *)
Lemma stream_balanced es :
  ∀ b, (count ul_open (stream b es) + (if b then 1 else 0))%nat
       = count ul_close (stream b es).
Proof.
  assert (ul_open ≠ ul_close) as Hoc by done.
  induction es as [|e es IH]; intros b.
  - rewrite stream_nil. by destruct b.
  - destruct (recognized e) eqn:Hr; [|by rewrite stream_unrecognized].
    destruct (is_list_item e) eqn:Hi.
    + rewrite stream_list_item by done.
      destruct (item_no_list_tag e) as [Ho Hc].
      rewrite !count_app, !count_one, <- (IH true).
      destruct b; rewrite ?count_one, ?count_nil; repeat case_decide;
        try congruence; lia.
    + rewrite stream_block by done.
      destruct (count_block e Hi) as [Ho Hc].
      rewrite !count_app, Ho, Hc, <- (IH false).
      destruct b; rewrite ?count_one, ?count_nil; repeat case_decide;
        try congruence; lia.
Qed.

(** *** The identifier of a field *)

Lemma replace_in_run s rep :
  replaceWhiteSpaceRuns_from true s rep = replaceWhiteSpaceRuns_from false (trimStart s) rep.
Proof.
  induction s as [|x s IH]; [done|].
  cbn [replaceWhiteSpaceRuns_from trimStart].
  destruct (isWhiteSpace x) eqn:Hx; [exact IH|].
  cbn [replaceWhiteSpaceRuns_from]. by rewrite Hx.
Qed.

Lemma trimStart_head s y : head (trimStart s) = Some y → isWhiteSpace y = false.
Proof.
  induction s as [|x s IH]; [done|].
  cbn [trimStart]. destruct (isWhiteSpace x) eqn:Hx; [exact IH|].
  by intros [= <-].
Qed.

Lemma trimStart_length s : (length (trimStart s) <= length s)%nat.
Proof.
  induction s as [|x s IH]; [done|].
  cbn [trimStart]. destruct (isWhiteSpace x); cbn [length]; lia.
Qed.

(** [replace(/\s+/g, "-")] turns every maximal run of white space into
    one hyphen. *)
Lemma replaceWhiteSpaceRuns_collapsed s :
  collapsed s (replaceWhiteSpaceRuns s (js "-")).
Proof.
  unfold replaceWhiteSpaceRuns.
  remember (length s) as n eqn:Hn. revert s Hn.
  induction n as [n IH] using lt_wf_ind. intros s Hn.
  destruct s as [|x s]; [constructor|].
  cbn [replaceWhiteSpaceRuns_from]. destruct (isWhiteSpace x) eqn:Hx.
  - rewrite replace_in_run.
    change (js "-" ++ ?t) with (hyphen :: t).
    destruct (trimStart_split s) as (pre & E & Hpre).
    replace (x :: s) with ((x :: pre) ++ trimStart s)
      by (cbn [app]; f_equal; symmetry; exact E).
    apply collapsed_run; [done|by constructor|apply trimStart_head|].
    apply (IH (length (trimStart s))); [|done].
    pose proof (trimStart_length s). cbn [length] in Hn. lia.
  - apply collapsed_unit; [done|].
    apply (IH (length s)); [|done]. cbn [length] in Hn. lia.
Qed.

Lemma in_append st x y : x ∈ html st → x ∈ html (append st y).
Proof. intros H. unfold append. cbn [html]. apply elem_of_app. by left. Qed.

Lemma in_append_if (t : bool) st x y : x ∈ html st → x ∈ html (append_if t st y).
Proof. destruct t; [apply in_append|done]. Qed.

Lemma in_append_here st x : x ∈ html (append st x).
Proof. unfold append. cbn [html]. apply elem_of_app. right. left. Qed.

Lemma step_input_like st e :
  is_input_like (type e) = true → step st e = render_input toLowerCase st e.
Proof.
  intros Hin.
  destruct (kind_cases e) as [Hh _ _|H1 H2 _ _| | |]; try congruence.
  - exfalso. apply bool_decide_eq_true in Hh. rewrite Hh in Hin. done.
  - unfold render_element. by rewrite H1, H2.
Qed.

(** The label and the control of a field carry the same identifier:
    the name when there is one, the label in lower case with its white
    space collapsed otherwise. *)
Lemma field_pieces st e lbl :
  label e = Some lbl → truthy (label e) = true →
  label_piece (field_id toLowerCase e) lbl ∈ html (render_input toLowerCase st e)
  ∧ id_piece (field_id toLowerCase e) ∈ html (render_input toLowerCase st e).
Proof.
  intros Hl Ht. unfold render_input. rewrite Ht, Hl.
  cbn [append_if default from_option id].
  split; destruct (jseqb (type e) (js "textarea"));
    repeat first [apply in_append_here | apply in_append | apply in_append_if].
Qed.

Lemma field_id_cases e lbl :
  label e = Some lbl →
  (truthy (name e) = true → name e = Some (field_id toLowerCase e))
  ∧ (truthy (name e) = false → collapsed (toLowerCase lbl) (field_id toLowerCase e)).
Proof.
  intros Hl. unfold field_id. rewrite Hl. cbn [default].
  destruct (name e) as [[|c n]|]; cbn [truthy or_else]; split; try done;
    intros _; apply replaceWhiteSpaceRuns_collapsed.
Qed.

(** *** Order, and elements of unrecognized kind *)

Lemma html_closeList st :
  html (closeList st) = html st ++ if inList st then [ul_close] else [].
Proof. destruct st as [h [] c]; cbn; by rewrite ?app_nil_r. Qed.

Lemma foldl_extends st es :
  html (foldl step st es)
  = html st ++ html (foldl step (State [] (inList st) []) es).
Proof.
  destruct st as [h b c]. cbn [html inList].
  by rewrite (state_as_shift h b c), foldl_shift.
Qed.

Lemma foldl_console st es :
  Forall (λ e, recognized e = true) es → console (foldl step st es) = console st.
Proof.
  intros Hes. revert st. induction Hes as [|e es Hr _ IH]; intros st; [done|].
  cbn [foldl]. rewrite IH. destruct st as [h b c].
  destruct (is_list_item e) eqn:Hi.
  - by rewrite step_list_item.
  - by rewrite step_block.
Qed.

(** An element of unrecognized kind leaves the markup as it would be
    without it, and leaves a warning on the console. *)
Lemma foldl_skip st es1 e es2 :
  recognized e = false →
  html (foldl step st (es1 ++ e :: es2)) = html (foldl step st (es1 ++ es2))
  ∧ inList (foldl step st (es1 ++ e :: es2)) = inList (foldl step st (es1 ++ es2))
  ∧ unknown_type_warning e ∈ console (foldl step st (es1 ++ e :: es2)).
Proof.
  intros Hr. rewrite !foldl_app. cbn [foldl].
  destruct (foldl step st es1) as [h b c].
  rewrite step_unrecognized by done.
  rewrite (state_as_shift h b (c ++ _)), (state_as_shift h b c), !foldl_shift.
  unfold shift. cbn [html inList console]. split; [done|]. split; [done|].
  rewrite !elem_of_app, list_elem_of_singleton. auto.
Qed.

End RenderFacts.

(** ** Validated forms can be rendered *)

Section FormFacts.

Implicit Types (props : gmap jsstring jsvalue) (k : jsstring) (v : jsvalue).

Lemma matches_optional_string props k :
  matches (ZOptional ZString) (get props k) = true →
  ∃ o, string_field props k = Some o.
Proof.
  unfold get, string_field.
  destruct (props !! k) as [[]|]; cbn [default from_option id matches]; eauto; done.
Qed.

Lemma matches_optional_boolean props k :
  matches (ZOptional ZBoolean) (get props k) = true →
  ∃ o, bool_field props k = Some o.
Proof.
  unfold get, bool_field.
  destruct (props !! k) as [[]|]; cbn [default from_option id matches]; eauto; done.
Qed.

Lemma matches_element v :
  matches CVElement v = true →
  ∃ e, element_of_value v = Some e ∧ recognized e = true.
Proof.
  destruct v as [| | | | | |props]; try done.
  unfold CVElement. cbn [matches forallb fst snd]. rewrite !andb_true_iff.
  intros (Ht & Hl & Hn & Hr & Hp & Hx & _).
  apply matches_optional_string in Hl as [l Hl], Hn as [n Hn], Hp as [p Hp],
    Hx as [x Hx].
  apply matches_optional_boolean in Hr as [r Hr].
  unfold get in Ht.
  destruct (props !! js "type") as [[| | | |t| |]|] eqn:Et; try done.
  cbn [default from_option id matches] in Ht.
  exists (Element t l n r p x). split; [|exact Ht].
  unfold element_of_value. rewrite Et, Hl, Hn, Hr, Hp, Hx. done.
Qed.

Lemma matches_form v :
  matches CVForm v = true →
  ∃ f, form_of_value v = Some f
       ∧ Forall (λ e, recognized e = true) (elements_list f).
Proof.
  destruct v as [| | | | | |props]; try done.
  unfold CVForm. cbn [matches forallb fst snd]. rewrite !andb_true_iff.
  intros (Ht & He & _). unfold get in Ht, He.
  destruct (props !! js "type") as [[| | | |t| |]|] eqn:Et; try done.
  destruct (props !! js "elements") as [[| | | | |items|]|] eqn:Ee; try done.
  cbn [default from_option id matches] in He.
  assert (∃ es, mapM element_of_value items = Some es
                ∧ Forall (λ e, recognized e = true) es) as (es & Hes & Hrec).
  { clear Ee. induction items as [|x items IH]; [by exists []|].
    cbn [forallb] in He. apply andb_prop in He as [Hx He].
    destruct (matches_element x Hx) as (e & Hdec & Hr).
    destruct (IH He) as (es & Hes & Hrec).
    exists (e :: es). split; [|by constructor].
    cbn [mapM]. rewrite Hdec. cbn. by rewrite Hes. }
  exists (Form t (Some es)). split; [|exact Hrec].
  unfold form_of_value. rewrite Et, Ee, Hes. done.
Qed.

End FormFacts.

(** ** Every way an extraction function can end *)

Section Outcomes.

Variable generateContent : jsstring → outcome.

Implicit Types (f : extractor) (text prompt : jsstring).

Lemma no_object_dec text : {no_object text} + {¬ no_object text}.
Proof.
  destruct ((indexOf text lbrace =? -1) || (lastIndexOf text rbrace =? -1)
            || (indexOf text lbrace >=? lastIndexOf text rbrace)) eqn:E.
  - left. by apply guard_no_object.
  - right. intros H. apply guard_no_object in H. congruence.
Qed.

Lemma caught_has_error f error :
  ∃ ev, ev ∈ caught f error ∧ is_error ev = true.
Proof. destruct f; eexists; (split; [left|done]). Qed.

Lemma parse_object_result shape payload v :
  Zod.parse (ZObject shape) payload = OK v → ∃ props, v = VObj props.
Proof.
  unfold Zod.parse. destruct payload; try done. cbn [zparse].
  intros H. apply mergeObject_ok in H as [_ ->]. eauto.
Qed.

Lemma schema_of_object f : ∃ shape, schema_of f = ZObject shape.
Proof. destruct f; eexists; reflexivity. Qed.

Lemma run_outcome f prompt :
  (∃ tr ev, run f generateContent prompt = (tr, inr VNull)
            ∧ ev ∈ tr ∧ is_error ev = true)
  ∨ (∃ tr v, run f generateContent prompt = (tr, inr v)
             ∧ succeeds generateContent f prompt v).
Proof.
  destruct (generateContent prompt) as [message|r] eqn:Hg.
  { left. destruct (caught_has_error f (TransportError message)) as (ev & Hev & He).
    exists (call_generateContent prompt :: caught f (TransportError message)), ev.
    split; [by apply run_rejected|]. split; [by right|done]. }
  destruct (text_of r) as [text|] eqn:Ht; cycle 1.
  { left. destruct (run_no_text generateContent f prompt r Hg) as (ev & He & ->); [by left|].
    eexists _, ev. split; [done|]. split; [right; left|done]. }
  destruct (decide (empty_is_no_text f = true ∧ text = [])) as [[Hf ->]|Hne].
  { left. destruct (run_no_text generateContent f prompt r Hg) as (ev & He & ->); [by right|].
    eexists _, ev. split; [done|]. split; [right; left|done]. }
  rewrite (run_text generateContent f prompt r text Hg Ht) by (intros ? ->; by apply Hne).
  destruct (no_object_dec (text_seen f text)) as [Hno|Hobj].
  { left. rewrite locate_no_object by done. cbn [settle].
    eexists _, (no_json_error (text_seen f text)). split; [done|].
    split; [|done]. apply elem_of_app. right. left. }
  rewrite locate_object by done.
  destruct (JSON_parse (json_slice (text_seen f text))) as [payload|] eqn:Hp; cycle 1.
  { left. cbn [settle].
    eexists _, (malformed_error (json_slice (text_seen f text))). split; [done|].
    split; [|done]. apply elem_of_app. right. right. left. }
  destruct (Zod.parse (schema_of f) payload) as [v|issues] eqn:Hz.
  - right. cbn [settle]. eexists _, v. split; [done|].
    exists r, text, payload. done.
  - left. cbn [settle].
    destruct (caught_has_error f (ZodError issues)) as (ev & Hev & He).
    eexists _, ev. split; [done|]. split; [|done].
    rewrite !elem_of_app. auto.
Qed.

End Outcomes.

(** * The claims *)

Section Claims.

Implicit Types (f : extractor) (generateContent : jsstring → outcome)
  (prompt text : jsstring) (toLowerCase : jsstring → jsstring).

Lemma object_span_nonempty f text : ¬ no_object (text_seen f text) → text ≠ [].
Proof.
  intros Hobj ->. apply Hobj. left.
  destruct f; cbn; apply not_elem_of_nil.
Qed.

Lemma prelude_no_parse_call f prompt text :
  Forall (λ ev, is_parse_call ev = false) (prelude f prompt text).
Proof. destruct f; repeat constructor. Qed.

(** C1 (as amended).  When the endpoint answers with a text whose object
    span parses to a payload that matches the schema of the function and
    carries no key the schema does not declare, the function hands the
    span to the parser and returns the parsed payload itself. *)
Theorem matching_payload_returned f generateContent prompt r text payload :
  generateContent prompt = Resolves r →
  text_of r = Some text →
  ¬ no_object (text_seen f text) →
  JSON_parse (json_slice (text_seen f text)) = Some payload →
  matches (schema_of f) payload = true →
  only_declared_keys (schema_of f) payload = true →
  run f generateContent prompt
  = (prelude f prompt text ++ [call_JSON_parse (json_slice (text_seen f text))],
     inr payload).
Proof.
  intros Hg Ht Hobj Hp Hm Hk.
  rewrite (run_text generateContent f prompt r text Hg Ht)
    by (intros _; by apply (object_span_nonempty f)).
  rewrite locate_object, Hp by done.
  unfold Zod.parse. by rewrite zparse_same.
Qed.

Lemma matching_payload_returned_witness :
  run CheckCompliance (reply verdict_text) []
  = ([call_generateContent []; call_JSON_parse (json_slice verdict_text)], inr verdict).
Proof.
  apply (matching_payload_returned CheckCompliance (reply verdict_text) []
           (Some {| candidates :=
                      Some [ {| content :=
                                  Some {| parts := Some [ {| text := Some verdict_text |} ] |} |} ] |})
           verdict_text verdict).
  - reflexivity.
  - reflexivity.
  - intros H. apply guard_no_object in H. vm_compute in H. discriminate H.
  - vm_compute. reflexivity.
  - vm_compute. reflexivity.
  - vm_compute. reflexivity.
Defined.

(** C1 (as stated) fails on a payload with a key the schema does not
    declare: the payload matches the schema, and what is returned is the
    payload without that key. *)
Lemma undeclared_key_dropped :
  JSON_parse (json_slice annotated_text) = Some annotated_verdict
  ∧ matches ContentCompliance annotated_verdict = true
  ∧ result (run CheckCompliance (reply annotated_text) []) = inr verdict
  ∧ verdict ≠ annotated_verdict.
Proof.
  split; [vm_compute; reflexivity|].
  split; [vm_compute; reflexivity|].
  split; [vm_compute; reflexivity|].
  intros H.
  apply (f_equal (λ v, match v with VObj m => m !! js "note" | _ => None end)) in H.
  vm_compute in H. discriminate H.
Qed.

(** C2 (as amended).  When the endpoint answers with a text that has no
    opening brace, or no closing brace, or whose first opening brace does
    not come strictly before its last closing brace, the function traces
    the no-JSON error with the text it searched and returns [null]; the
    parser is not called.  For [checkCompliance] and [generateUI] the text
    must not be empty. *)
Theorem no_object_span_reported f generateContent prompt r text :
  generateContent prompt = Resolves r →
  text_of r = Some text →
  (empty_is_no_text f = true → text ≠ []) →
  no_object text →
  run f generateContent prompt
  = (prelude f prompt text ++ [no_json_error (text_seen f text)], inr VNull)
  ∧ Forall (λ ev, is_parse_call ev = false) (trace (run f generateContent prompt)).
Proof.
  intros Hg Ht Hne Hno.
  rewrite (run_text generateContent f prompt r text Hg Ht Hne).
  rewrite locate_no_object by (by apply no_object_seen).
  split; [done|]. cbn [settle trace fst].
  apply Forall_app. split; [apply prelude_no_parse_call|by repeat constructor].
Qed.

Lemma no_object_span_reported_witness :
  run ExtractCook (reply (js " no braces here ")) []
  = ([call_generateContent []; no_json_error (js "no braces here")], inr VNull)
  ∧ Forall (λ ev, is_parse_call ev = false)
      (trace (run ExtractCook (reply (js " no braces here ")) [])).
Proof.
  apply (no_object_span_reported ExtractCook (reply (js " no braces here ")) []
           (Some {| candidates :=
                      Some [ {| content :=
                                  Some {| parts :=
                                            Some [ {| text := Some (js " no braces here ") |} ] |} |} ] |})
           (js " no braces here ")).
  - reflexivity.
  - reflexivity.
  - simpl. discriminate.
  - apply guard_no_object. vm_compute. reflexivity.
Defined.

(** C2 (as stated) fails on the empty text: it has no brace, and
    [checkCompliance] reports that the model returned no text, not that
    no JSON object was found. *)
Lemma empty_text_reported_as_no_text :
  no_object []
  ∧ run CheckCompliance (reply []) []
    = ([call_generateContent []; console_error [DText (js "Model returned no text.")]],
       inr VNull)
  ∧ no_json_error [] ∉ trace (run CheckCompliance (reply []) []).
Proof.
  split; [left; apply not_elem_of_nil|].
  split; [reflexivity|].
  intros H. cbn in H.
  apply elem_of_cons in H as [H|H]; [discriminate H|].
  apply elem_of_cons in H as [H|H]; [|by apply elem_of_nil in H].
  vm_compute in H. discriminate H.
Qed.

Remark missing_field_is_violation shape props k :
  (k, ZString) ∈ shape → props !! k = None →
  violation (ZObject shape) [] (VObj props)
    (Issue (invalid_type (a_type TString) TUndefined) [Key k]).
Proof.
  intros Hk Hm. apply (in_field shape [] props k ZString); [done|].
  unfold get. rewrite Hm. by apply (not_a_string [Key k] VUndef).
Qed.

Remark wrong_type_is_violation shape props k v :
  (k, ZBoolean) ∈ shape → props !! k = Some v → getParsedType v ≠ TBoolean →
  violation (ZObject shape) [] (VObj props)
    (Issue (invalid_type (a_type TBoolean) (getParsedType v)) [Key k]).
Proof.
  intros Hk Hm Hv. apply (in_field shape [] props k ZBoolean); [done|].
  unfold get. rewrite Hm. by apply not_a_boolean.
Qed.

Remark outside_enum_is_violation shape props k options x :
  (k, ZNullable (ZEnum options)) ∈ shape → props !! k = Some (VStr x) → x ∉ options →
  violation (ZObject shape) [] (VObj props)
    (Issue (invalid_enum_value options x) [Key k]).
Proof.
  intros Hk Hm Hx. apply (in_field shape [] props k (ZNullable (ZEnum options))); [done|].
  unfold get. rewrite Hm. apply under_nullable; [done|]. by apply enum_outside_set.
Qed.

(** C3.  When the parsed payload violates the schema of the function (a
    required field is missing, a field has the wrong type, an enum field
    is outside its set, at any depth), validation fails with issues among
    which is the one of that field, with its path and its reason; the
    function traces the error that carries them and returns [null]. *)
Theorem violation_reported f generateContent prompt r text payload i :
  generateContent prompt = Resolves r →
  text_of r = Some text →
  ¬ no_object (text_seen f text) →
  JSON_parse (json_slice (text_seen f text)) = Some payload →
  violation (schema_of f) [] payload i →
  ∃ issues,
    i ∈ issues
    ∧ Zod.parse (schema_of f) payload = INVALID issues
    ∧ run f generateContent prompt
      = (prelude f prompt text
           ++ call_JSON_parse (json_slice (text_seen f text))
           :: caught f (ZodError issues),
         inr VNull).
Proof.
  intros Hg Ht Hobj Hp Hv.
  destruct (zparse_reports _ _ _ _ Hv) as (issues & Hz & Hi).
  exists issues. split; [done|]. split; [done|].
  rewrite (run_text generateContent f prompt r text Hg Ht)
    by (intros _; by apply (object_span_nonempty f)).
  rewrite locate_object, Hp by done. unfold Zod.parse. rewrite Hz. done.
Qed.

Lemma violation_reported_witness :
  ∃ issues,
    Issue (invalid_enum_value [js "violence"; js "sexual"; js "self_harm"] (js "spam"))
      [Key (js "category")] ∈ issues
    ∧ Zod.parse ContentCompliance spam_verdict = INVALID issues
    ∧ run CheckCompliance (reply spam_text) []
      = ([call_generateContent []; call_JSON_parse spam_text;
          console_error [DText (js "Failed to process Gemini response:");
                         DError (ZodError issues)];
          console_error [DText (js "Zod validation failed:"); DIssues issues]],
         inr VNull).
Proof.
  apply (violation_reported CheckCompliance (reply spam_text) []
           (Some {| candidates :=
                      Some [ {| content :=
                                  Some {| parts := Some [ {| text := Some spam_text |} ] |} |} ] |})
           spam_text spam_verdict).
  - reflexivity.
  - reflexivity.
  - intros H. apply guard_no_object in H. vm_compute in H. discriminate H.
  - vm_compute. reflexivity.
  - apply outside_enum_is_violation.
    + right. left.
    + vm_compute. reflexivity.
    + intros H. vm_compute in H.
      repeat (apply elem_of_cons in H as [H|H]; [discriminate H|]).
      by apply elem_of_nil in H.
Defined.

Lemma substring_inside (s : jsstring) a b :
  0 <= a <= b → b <= Z.of_nat (length s) →
  substring s a b = take (Z.to_nat (b - a)) (drop (Z.to_nat a) s).
Proof.
  intros Hab Hb. unfold substring.
  rewrite (Z.max_l a 0), (Z.max_l b 0) by lia.
  rewrite (Z.min_l a), (Z.min_l b) by lia.
  by rewrite (Z.min_l a b), (Z.max_r a b) by lia.
Qed.

(** The span runs from the first opening brace to the last closing brace,
    both included. *)
Lemma json_slice_inclusive text :
  ¬ no_object text →
  (∃ before after,
      text = before ++ json_slice text ++ after
      ∧ Z.of_nat (length before) = indexOf text lbrace
      ∧ Z.of_nat (length (before ++ json_slice text)) = lastIndexOf text rbrace + 1)
  ∧ head (json_slice text) = Some lbrace
  ∧ last (json_slice text) = Some rbrace.
Proof.
  intros Hobj. unfold no_object in Hobj.
  destruct (decide (lbrace ∈ text)) as [Hl|Hl]; [|tauto].
  destruct (decide (rbrace ∈ text)) as [Hr|Hr]; [|tauto].
  assert (indexOf text lbrace < lastIndexOf text rbrace) as Hlt.
  { destruct (Z.lt_ge_cases (indexOf text lbrace) (lastIndexOf text rbrace)); [done|].
    exfalso. apply Hobj. right. right. lia. }
  destruct (indexOf_from_shift text lbrace 0 Hl) as (_ & Hi & Hil).
  destruct (lastIndexOf_from_shift text rbrace 0 (-1) Hr) as (_ & Hj & Hjl).
  unfold json_slice. rewrite substring_inside by lia.
  set (i := Z.to_nat (indexOf text lbrace)) in *.
  set (n := Z.to_nat (lastIndexOf text rbrace + 1 - indexOf text lbrace)).
  assert (Z.to_nat (lastIndexOf text rbrace) = (i + (n - 1))%nat) as Hjn by lia.
  assert (i + n <= length text)%nat as Hin by lia.
  assert (0 < n)%nat as Hn by lia.
  split; [|split].
  - exists (take i text), (drop n (drop i text)).
    rewrite (take_drop n), (take_drop i). split; [done|].
    rewrite length_app, !length_take, length_drop. lia.
  - rewrite head_lookup, lookup_take_lt, lookup_drop by lia.
    by rewrite Nat.add_0_r.
  - rewrite last_lookup, length_take, length_drop.
    rewrite lookup_take_lt, lookup_drop by lia.
    replace (i + Init.Nat.pred (n `min` (length text - i)))%nat
      with (Z.to_nat (lastIndexOf text rbrace)) by lia.
    exact Hjl.
Qed.

Lemma sample_verdict_extracted :
  run CheckCompliance (reply verdict_text) []
  = ([call_generateContent []; call_JSON_parse (json_slice verdict_text)], inr verdict).
Proof. vm_compute. reflexivity. Qed.

(** C4.  The candidate payload is the inclusive substring from the first
    opening brace to the last closing brace, and that substring is what
    the parser is called with; on the sample text the compliance function
    returns the verdict object. *)
Theorem inclusive_span_extracted :
  (∀ S text,
      ¬ no_object text →
      (∃ before after,
          text = before ++ json_slice text ++ after
          ∧ Z.of_nat (length before) = indexOf text lbrace
          ∧ Z.of_nat (length (before ++ json_slice text)) = lastIndexOf text rbrace + 1)
      ∧ head (json_slice text) = Some lbrace
      ∧ last (json_slice text) = Some rbrace
      ∧ ∃ rest res,
          locate_parse_validate S text = (call_JSON_parse (json_slice text) :: rest, res))
  ∧ run CheckCompliance (reply verdict_text) []
    = ([call_generateContent []; call_JSON_parse (json_slice verdict_text)], inr verdict).
Proof.
  split; [|exact sample_verdict_extracted].
  intros S text Hobj.
  destruct (json_slice_inclusive text Hobj) as (Hspan & Hhead & Hlast).
  split; [done|]. split; [done|]. split; [done|].
  rewrite locate_object by done.
  destruct (JSON_parse (json_slice text)) as [payload|]; [|by eexists _, _].
  destruct (Zod.parse S payload); by eexists _, _.
Qed.

Lemma inclusive_span_extracted_witness :
  head (json_slice verdict_text) = Some lbrace
  ∧ last (json_slice verdict_text) = Some rbrace.
Proof.
  destruct inclusive_span_extracted as [Hspan _].
  destruct (Hspan ContentCompliance verdict_text) as (_ & Hhead & Hlast & _).
  - intros H. apply guard_no_object in H. vm_compute in H. discriminate H.
  - split; [exact Hhead|exact Hlast].
Defined.

(** C5 (as amended).  The markup is the grouped markup of the recognized
    elements: an element of unrecognized kind appends nothing and does not
    end a run of list items; among the recognized elements every maximal
    run of consecutive list items sits in one list container, which is
    closed before the next block or before the closing form tag.  On the
    four-element example this gives the heading, one list with the two
    items, and the submit button after the closed list. *)
Theorem list_items_grouped toLowerCase :
  (∀ ui,
      pieces toLowerCase ui
      = grouped_pieces toLowerCase
          (filter (λ e, recognized e = true) (elements_list ui)))
  ∧ pieces toLowerCase skills_form
    = [form_open;
       js "  <h2>Skills</h2>" ++ nl;
       ul_open;
       js "    <li>Go</li>" ++ nl;
       js "    <li>Rust</li>" ++ nl;
       ul_close;
       js "  <button type=" ++ dq ++ js "submit" ++ dq;
       js ">Send</button>" ++ nl;
       form_close].
Proof.
  split; [apply pieces_grouped|].
  vm_compute. reflexivity.
Qed.

(** C5 (as stated) fails when an element of unrecognized kind stands
    between two list items: it is not a list item, yet the list stays
    open across it, and both items end up in the same list. *)
Lemma unrecognized_element_keeps_list_open :
  pieces ascii_lower interrupted_list
  = [form_open; ul_open; js "    <li>Go</li>" ++ nl; js "    <li>Rust</li>" ++ nl;
     ul_close; form_close]
  ∧ grouped_pieces ascii_lower (elements_list interrupted_list)
    = [form_open; ul_open; js "    <li>Go</li>" ++ nl; ul_close;
       ul_open; js "    <li>Rust</li>" ++ nl; ul_close; form_close]
  ∧ pieces ascii_lower interrupted_list
    ≠ grouped_pieces ascii_lower (elements_list interrupted_list).
Proof.
  split; [vm_compute; reflexivity|].
  split; [vm_compute; reflexivity|].
  intros H. vm_compute in H. discriminate H.
Qed.

(** C7.  For an input-like element with a label, the [for] attribute of
    the label and the [id] attribute of the control carry the same
    identifier: the name of the element when it has one, and otherwise
    the label in lower case with every run of white space replaced by one
    hyphen. *)
Theorem field_identifier toLowerCase st e lbl :
  is_input_like (type e) = true →
  label e = Some lbl → lbl ≠ [] →
  ∃ id,
    label_piece id lbl ∈ html (render_element toLowerCase st e)
    ∧ id_piece id ∈ html (render_element toLowerCase st e)
    ∧ (∀ n, name e = Some n → n ≠ [] → id = n)
    ∧ (name e = None ∨ name e = Some [] → collapsed (toLowerCase lbl) id).
Proof.
  intros Hin Hl Hne.
  assert (truthy (label e) = true) as Ht by (rewrite Hl; by destruct lbl).
  exists (field_id toLowerCase e).
  rewrite step_input_like by done.
  destruct (field_pieces toLowerCase st e lbl Hl Ht) as [Hfor Hid].
  destruct (field_id_cases toLowerCase e lbl Hl) as [Hname Hlabel].
  split; [done|]. split; [done|]. split.
  - intros n Hn Hnn. rewrite Hn in Hname.
    assert (Some n = Some (field_id toLowerCase e)) as [= ->]; [|done].
    apply Hname. by destruct n.
  - intros Hn. apply Hlabel. by destruct Hn as [->| ->].
Qed.

Lemma field_identifier_witness :
  ∃ id,
    label_piece id (js "Email  Address")
      ∈ html (render_element ascii_lower (initial) email_field)
    ∧ id_piece id ∈ html (render_element ascii_lower (initial) email_field)
    ∧ (∀ n, name email_field = Some n → n ≠ [] → id = n)
    ∧ (name email_field = None ∨ name email_field = Some []
       → collapsed (ascii_lower (js "Email  Address")) id).
Proof.
  apply (field_identifier ascii_lower initial email_field (js "Email  Address")).
  - vm_compute. reflexivity.
  - reflexivity.
  - simpl. discriminate.
Defined.

(** C7 (as stated) fails on an input-like element without a label: the
    element passes the schema and has a name, and its markup carries the
    name but neither a label nor an [id] attribute. *)
Lemma unlabelled_field_has_no_identifier :
  matches CVElement named_field_value = true
  ∧ element_of_value named_field_value = Some named_field
  ∧ is_input_like (type named_field) = true
  ∧ name named_field = Some (js "email")
  ∧ html (render_element ascii_lower initial named_field)
    = [form_open;
       js "  <div class=" ++ dq ++ js "form-field" ++ dq ++ js ">" ++ nl;
       js "    <input type=" ++ dq ++ js "text" ++ dq;
       js " name=" ++ dq ++ js "email" ++ dq;
       js ">" ++ nl;
       js "  </div>" ++ nl]
  ∧ (¬ ∃ id, id_piece id ∈ html (render_element ascii_lower initial named_field))
  ∧ (¬ ∃ id lbl,
         label_piece id lbl ∈ html (render_element ascii_lower initial named_field)).
Proof.
  assert (html (render_element ascii_lower initial named_field)
          = [form_open;
             js "  <div class=" ++ dq ++ js "form-field" ++ dq ++ js ">" ++ nl;
             js "    <input type=" ++ dq ++ js "text" ++ dq;
             js " name=" ++ dq ++ js "email" ++ dq;
             js ">" ++ nl;
             js "  </div>" ++ nl]) as Hhtml by (vm_compute; reflexivity).
  split; [vm_compute; reflexivity|].
  split; [vm_compute; reflexivity|].
  split; [vm_compute; reflexivity|].
  split; [reflexivity|].
  split; [exact Hhtml|].
  rewrite Hhtml. split.
  - intros (id & H). apply list_elem_of_In in H. vm_compute in H.
    intuition discriminate.
  - intros (id & lbl & H). apply list_elem_of_In in H. vm_compute in H.
    intuition discriminate.
Qed.

Example email_field_id : field_id ascii_lower email_field = js "email-address".
Proof. vm_compute. reflexivity. Qed.

Lemma mbind_returns {A B} (P : A → Prop) (k : A → M B) (m : M A) :
  (∃ tr a, m = (tr, inr a) ∧ P a) →
  (∀ a, P a → ∃ tr b, k a = (tr, inr b)) →
  ∃ tr b, m ≫= k = (tr, inr b).
Proof.
  intros (tr & a & -> & Ha) Hk. destruct (Hk a Ha) as (tr' & b & Hb).
  exists (tr ++ tr'), b. unfold mbind, M_bind, bind. by rewrite Hb.
Qed.

Lemma emit_returns ev : ∃ tr b, emit ev = (tr, inr b).
Proof. by eexists _, _. Qed.

Lemma script_exit_zero c key (main : M unit) :
  (∃ tr b, main = (tr, inr b)) → (script (Some (c :: key)) main).2 = 0.
Proof. by intros (tr & b & ->). Qed.

(** What an extraction function hands back to [main]: [null], or the
    validated value of a successful run. *)
Lemma run_returns f generateContent prompt :
  ∃ tr v,
    run f generateContent prompt = (tr, inr v)
    ∧ (v = VNull ∧ (∃ ev, ev ∈ tr ∧ is_error ev = true)
       ∨ v ≠ VNull ∧ succeeds generateContent f prompt v).
Proof.
  destruct (run_outcome generateContent f prompt)
    as [(tr & ev & Hrun & Hev & He)|(tr & v & Hrun & Hs)].
  - exists tr, VNull. split; [done|]. left. eauto.
  - exists tr, v. split; [done|]. right. split; [|done].
    destruct Hs as (r & text & payload & _ & _ & _ & _ & Hz).
    destruct (schema_of_object f) as [shape Hshape]. rewrite Hshape in Hz.
    apply parse_object_result in Hz as [props ->]. done.
Qed.

Lemma validated_form_decodes generateContent prompt v :
  succeeds generateContent GenerateUI prompt v →
  ∃ ui, form_of_value v = Some ui
        ∧ Forall (λ e, recognized e = true) (elements_list ui).
Proof.
  intros (r & text & payload & _ & _ & _ & _ & Hz).
  apply matches_form. eapply (zparse_matches CVForm); [|exact Hz].
  vm_compute. reflexivity.
Qed.

Lemma main_returns generateContent prompt :
  (∃ tr b, main_compliance generateContent prompt = (tr, inr b))
  ∧ (∃ tr b, main_cook generateContent prompt = (tr, inr b))
  ∧ (∃ tr b, main_guide generateContent prompt = (tr, inr b)).
Proof.
  repeat split.
  - apply (mbind_returns (λ _, True)); [by eexists _, _|intros _ _].
    apply (mbind_returns (λ _, True)).
    + destruct (run_returns CheckCompliance generateContent prompt) as (tr & v & H & _).
      by exists tr, v.
    + intros v _. destruct (is_truthy v); apply emit_returns.
  - apply (mbind_returns (λ _, True)); [by eexists _, _|intros _ _].
    apply (mbind_returns (λ _, True)).
    + destruct (run_returns ExtractCook generateContent prompt) as (tr & v & H & _).
      by exists tr, v.
    + intros v _. destruct (is_truthy v); apply emit_returns.
  - apply (mbind_returns (λ _, True)); [by eexists _, _|intros _ _].
    apply (mbind_returns (λ _, True)).
    + destruct (run_returns ExtractStructuredData generateContent prompt)
        as (tr & v & H & _).
      by exists tr, v.
    + intros v _. destruct (is_truthy v); apply emit_returns.
Qed.

(** The exit status of a script is read off the result of its [main]. *)
Lemma script_status c key (main : M unit) :
  (script (Some (c :: key)) main).2 = exit_status (result main).
Proof. by destruct main as [tr [e|[]]]. Qed.

(** How [main] of the UI script ends: normally when [generateUI] returned
    [null]; after a form, as the write of its document ends. *)
Lemma main_ui_result generateContent toLowerCase writeFileSync prompt :
  ∃ tr v,
    generateUI generateContent prompt = (tr, inr v)
    ∧ (v = VNull
       ∧ result (main_ui generateContent toLowerCase writeFileSync prompt) = inr tt
       ∨ ∃ ui,
           form_of_value v = Some ui
           ∧ result (main_ui generateContent toLowerCase writeFileSync prompt)
             = ui_result (ui_written writeFileSync (concat (pieces toLowerCase ui)))).
Proof.
  destruct (run_returns GenerateUI generateContent prompt)
    as (tr & v & Hrun & Hv). cbn [run] in Hrun.
  exists tr, v. split; [done|]. unfold main_ui. rewrite Hrun.
  destruct Hv as [[-> _]|[_ Hs]]; [left; split; reflexivity|].
  right. destruct (validated_form_decodes _ _ _ Hs) as (ui & Hui & Hrec).
  exists ui. split; [done|].
  destruct v; try discriminate Hui.
  cbn [is_truthy mbind M_bind bind emit]. rewrite Hui.
  unfold convertToHTML. rewrite after_elements_foldl, foldl_console by done.
  unfold write_file, ui_written, ui_result.
  cbn [mbind M_bind bind emit result snd].
  destruct (writeFileSync _ _); reflexivity.
Qed.

(** C6.  Without a credential a script traces the credential error and
    exits with status 1, whatever [main] would have done, and the
    endpoint is not called.  With a credential, every extraction function
    returns normally: [null] with an error on the console unless the
    endpoint answered, the answer had an object span, the span parsed and
    the payload passed the schema.  The compliance, recipe and guide
    scripts then exit with status 0; so does the UI script whenever
    [generateUI] returned [null], and after a form its status is 0 when
    the write of the document succeeds and 1 when the write throws. *)
Theorem failures_end_gracefully generateContent toLowerCase writeFileSync prompt :
  (∀ main,
      script None main = (credential_error, 1)
      ∧ script (Some []) main = (credential_error, 1)
      ∧ Forall (λ ev, is_endpoint_call ev = false) credential_error)
  ∧ (∀ f, ∃ tr v,
        run f generateContent prompt = (tr, inr v)
        ∧ (v = VNull ∧ (∃ ev, ev ∈ tr ∧ is_error ev = true)
           ∨ v ≠ VNull ∧ succeeds generateContent f prompt v))
  ∧ (∀ c key,
        (script (Some (c :: key)) (main_compliance generateContent prompt)).2 = 0
        ∧ (script (Some (c :: key)) (main_cook generateContent prompt)).2 = 0
        ∧ (script (Some (c :: key)) (main_guide generateContent prompt)).2 = 0
        ∧ ∃ tr v,
            generateUI generateContent prompt = (tr, inr v)
            ∧ (v = VNull
               ∧ (script (Some (c :: key))
                    (main_ui generateContent toLowerCase writeFileSync prompt)).2 = 0
               ∨ ∃ ui,
                   form_of_value v = Some ui
                   ∧ (script (Some (c :: key))
                        (main_ui generateContent toLowerCase writeFileSync prompt)).2
                     = match ui_written writeFileSync (concat (pieces toLowerCase ui)) with
                       | Written => 0
                       | Fails _ => 1
                       end)).
Proof.
  split; [|split].
  - intros main. repeat split. by repeat constructor.
  - intros f. apply run_returns.
  - intros c key.
    destruct (main_returns generateContent prompt) as (H1 & H2 & H3).
    repeat split; try by apply script_exit_zero.
    destruct (main_ui_result generateContent toLowerCase writeFileSync prompt)
      as (tr & v & Hrun & H).
    exists tr, v. split; [done|]. rewrite script_status.
    destruct H as [[-> ->]|(ui & Hui & ->)]; [by left|].
    right. exists ui. split; [done|].
    by destruct (ui_written _ _).
Qed.

(** C8.  The markup and the console output are determined by the element
    sequence alone: forms with the same elements render identically, and
    what was on the console before does not change the markup.  The
    output follows the order of the input: the markup appended for a
    prefix of the sequence is a prefix of the markup of the whole. *)
Theorem rendering_deterministic toLowerCase :
  (∀ t t' es,
      convertToHTML toLowerCase (Form t es) = convertToHTML toLowerCase (Form t' es))
  ∧ (∀ h b c c' es,
        html (foldl (render_element toLowerCase) (State h b c) es)
        = html (foldl (render_element toLowerCase) (State h b c') es))
  ∧ (∀ t es1 es2, ∃ rest,
        pieces toLowerCase (Form t (Some (es1 ++ es2)))
        = html (after_elements toLowerCase (Form t (Some es1))) ++ rest).
Proof.
  split; [done|]. split.
  - intros h b c c' es.
    by rewrite (state_as_shift h b c), (state_as_shift h b c'), !foldl_shift.
  - intros t es1 es2. unfold pieces.
    rewrite !after_elements_foldl. unfold elements_list. cbn [elements default from_option id].
    rewrite foldl_app, html_closeList, foldl_extends, <- !app_assoc. eauto.
Qed.

(** C9.  An element of unrecognized kind is skipped with a warning: the
    markup is the one the sequence without that element gives, so the
    elements after it are rendered, and the warning names the kind.  A
    value returned by [generateUI] reads as a form whose elements all
    have recognized kinds, and rendering it warns about nothing. *)
Theorem unrecognized_element_skipped toLowerCase :
  (∀ t es1 e es2,
      recognized e = false →
      result (convertToHTML toLowerCase (Form t (Some (es1 ++ e :: es2))))
      = result (convertToHTML toLowerCase (Form t (Some (es1 ++ es2))))
      ∧ unknown_type_warning e
        ∈ trace (convertToHTML toLowerCase (Form t (Some (es1 ++ e :: es2)))))
  ∧ (∀ generateContent prompt v,
        result (generateUI generateContent prompt) = inr v → v ≠ VNull →
        ∃ ui, form_of_value v = Some ui
              ∧ Forall (λ e, recognized e = true) (elements_list ui)
              ∧ trace (convertToHTML toLowerCase ui) = []).
Proof.
  split.
  - intros t es1 e es2 Hr.
    unfold convertToHTML, pieces, result, trace. cbn [fst snd].
    rewrite !after_elements_foldl. unfold elements_list. cbn [elements default from_option id].
    destruct (foldl_skip toLowerCase initial es1 e es2 Hr) as (Hh & Hi & Hw).
    split; [|exact Hw]. by rewrite !html_closeList, Hh, Hi.
  - intros generateContent prompt v Hv Hne.
    destruct (run_returns GenerateUI generateContent prompt)
      as (tr & v' & Hrun & [[-> _]|[_ Hs]]);
      cbn [run] in Hrun; rewrite Hrun in Hv; injection Hv as <-; [done|].
    destruct (validated_form_decodes _ _ _ Hs) as (ui & Hui & Hrec).
    exists ui. split; [done|]. split; [done|].
    unfold convertToHTML, trace. cbn [fst].
    rewrite after_elements_foldl. by rewrite foldl_console.
Qed.

Lemma unrecognized_element_skipped_witness :
  result (convertToHTML ascii_lower interrupted_list)
  = result (convertToHTML ascii_lower
              (Form (js "cv-form") (Some ([list_item "Go"] ++ [list_item "Rust"]))))
  ∧ console_warn [DText (js "Unknown element type: divider")]
    ∈ trace (convertToHTML ascii_lower interrupted_list).
Proof.
  destruct (unrecognized_element_skipped ascii_lower) as [Hskip _].
  apply (Hskip (js "cv-form") [list_item "Go"]
           (Element (js "divider") None None None None None) [list_item "Rust"]).
  vm_compute. reflexivity.
Defined.

(** C10.  Whatever the input, the returned markup begins with the opening
    form tag and ends with the closing form tag (each followed by the
    newline every piece ends with), and the list container is opened
    exactly as many times as it is closed. *)
Theorem form_and_lists_closed toLowerCase ui :
  result (convertToHTML toLowerCase ui) = inr (concat (pieces toLowerCase ui))
  ∧ (∃ body,
        concat (pieces toLowerCase ui)
        = (js "<form class=" ++ dq ++ js "cv-form" ++ dq ++ js ">" ++ nl)
            ++ body ++ (js "</form>" ++ nl))
  ∧ count ul_open (pieces toLowerCase ui) = count ul_close (pieces toLowerCase ui).
Proof.
  split; [done|]. rewrite pieces_stream. split.
  - exists (concat (RenderSpec.stream toLowerCase false (elements_list ui))).
    rewrite !concat_app. cbn [concat]. by rewrite !app_nil_r.
  - rewrite !count_app, !count_one.
    rewrite <- (stream_balanced toLowerCase (elements_list ui) false).
    repeat case_decide; done.
Qed.

End Claims.

(** * Further properties of the extraction functions *)

Section SpanFacts.

Implicit Types (s t pre post mid : jsstring) (c : code_unit).

Lemma lastIndexOf_framed_right pre s post c :
  c ∉ post → c ∈ s →
  lastIndexOf (pre ++ s ++ post) c = Z.of_nat (length pre) + lastIndexOf s c.
Proof.
  intros Hpost Hs. unfold lastIndexOf at 1.
  rewrite !lastIndexOf_from_app.
  rewrite (lastIndexOf_from_absent post) by done.
  by destruct (lastIndexOf_from_shift s c (0 + Z.of_nat (length pre))
                 (lastIndexOf_from pre c 0 (-1)) Hs) as (-> & _ & _).
Qed.

Lemma lastIndexOf_snoc s c : lastIndexOf (s ++ [c]) c = Z.of_nat (length s).
Proof.
  unfold lastIndexOf. rewrite lastIndexOf_from_app. cbn [lastIndexOf_from].
  by rewrite N.eqb_refl.
Qed.

Lemma indexOf_head s c : indexOf (c :: s) c = 0.
Proof. unfold indexOf. cbn [indexOf_from]. by rewrite N.eqb_refl. Qed.

(** The span of a text that has an opening brace after [pre] and its last
    closing brace before [post]. *)
Lemma json_slice_wrapped pre mid post :
  lbrace ∉ pre → rbrace ∉ post →
  json_slice (pre ++ (lbrace :: mid ++ [rbrace]) ++ post) = lbrace :: mid ++ [rbrace].
Proof.
  intros Hpre Hpost. unfold json_slice.
  assert (lbrace ∈ lbrace :: mid ++ [rbrace]) as Hl by left.
  assert (rbrace ∈ lbrace :: mid ++ [rbrace]) as Hr
    by (right; apply elem_of_app; right; left).
  pose proof (indexOf_framed pre _ post lbrace Hpre Hl) as Qi.
  pose proof (lastIndexOf_framed_right pre _ post rbrace Hpost Hr) as Qj.
  rewrite indexOf_head in Qi.
  change (lastIndexOf (lbrace :: mid ++ [rbrace]) rbrace)
    with (lastIndexOf ((lbrace :: mid) ++ [rbrace]) rbrace) in Qj.
  rewrite lastIndexOf_snoc in Qj.
  unfold jsstring, code_unit in *. rewrite Qi, Qj.
  rewrite substring_inside.
  - rewrite Z.add_0_r, Nat2Z.id, drop_app_length.
    apply take_app_length'. cbn [length]. rewrite length_app. cbn [length]. lia.
  - cbn [length]. lia.
  - rewrite !length_app. cbn [length]. rewrite length_app. cbn [length]. lia.
Qed.

Lemma trimStart_white pre s : white pre → trimStart (pre ++ s) = trimStart s.
Proof.
  induction 1 as [|x pre Hx _ IH]; [done|]. cbn [app trimStart]. by rewrite Hx.
Qed.

Lemma trimStart_app s post :
  white post → trimStart (s ++ post) = match trimStart s with [] => [] | t => t ++ post end.
Proof.
  intros Hpost. induction s as [|x s IH].
  - cbn [app trimStart]. rewrite <- (app_nil_r post), trimStart_white; done.
  - cbn [app trimStart]. destruct (isWhiteSpace x); [exact IH|done].
Qed.

Lemma trimEnd_white s post : white post → trimEnd (s ++ post) = trimEnd s.
Proof.
  intros Hpost. unfold trimEnd. rewrite rev_app_distr, trimStart_white; [done|].
  by apply Forall_rev.
Qed.

(** [trim] does not see white space added around a text. *)
Lemma trim_white pre s post : white pre → white post → trim (pre ++ s ++ post) = trim s.
Proof.
  intros Hpre Hpost. unfold trim.
  rewrite trimStart_white, trimStart_app by done.
  destruct (trimStart s) as [|x t] eqn:E; [done|]. by rewrite trimEnd_white.
Qed.

Lemma substring_framed pre s post x y :
  0 <= x <= Z.of_nat (length s) → 0 <= y <= Z.of_nat (length s) →
  substring (pre ++ s ++ post) (Z.of_nat (length pre) + x) (Z.of_nat (length pre) + y)
  = substring s x y.
Proof.
  intros Hx Hy. unfold substring. rewrite !length_app.
  set (P := Z.of_nat (length pre)).
  replace (Z.min (Z.max (P + x) 0) (Z.of_nat (length pre + (length s + length post))))
    with (P + x) by lia.
  replace (Z.min (Z.max (P + y) 0) (Z.of_nat (length pre + (length s + length post))))
    with (P + y) by lia.
  replace (Z.min (Z.max x 0) (Z.of_nat (length s))) with x by lia.
  replace (Z.min (Z.max y 0) (Z.of_nat (length s))) with y by lia.
  replace (Z.to_nat (Z.min (P + x) (P + y)))
    with (length pre + Z.to_nat (Z.min x y))%nat by lia.
  replace (Z.max (P + x) (P + y) - Z.min (P + x) (P + y))
    with (Z.max x y - Z.min x y) by lia.
  rewrite drop_app_add, drop_app, take_app_le; [reflexivity|].
  rewrite length_drop. lia.
Qed.

(** Trimming changes neither whether a text has an object span nor the
    span. *)
Lemma trim_keeps_span t :
  lbrace ∈ t → rbrace ∈ t →
  json_slice (trim t) = json_slice t
  ∧ (no_object (trim t) ↔ no_object t).
Proof.
  intros Hl Hr.
  destruct (trim_split t) as (pre & post & E & Hpre & Hpost).
  remember (trim t) as core eqn:Hcore. clear Hcore. subst t.
  assert (lbrace ∉ pre) by (by apply brace_not_in_white_space).
  assert (rbrace ∉ pre) by (by apply brace_not_in_white_space).
  assert (lbrace ∉ post) by (by apply brace_not_in_white_space).
  assert (rbrace ∉ post) by (by apply brace_not_in_white_space).
  assert (lbrace ∈ core) as Hlc by (rewrite !elem_of_app in Hl; tauto).
  assert (rbrace ∈ core) as Hrc by (rewrite !elem_of_app in Hr; tauto).
  destruct (indexOf_from_shift core lbrace 0 Hlc) as (_ & Hi & _).
  destruct (lastIndexOf_from_shift core rbrace 0 (-1) Hrc) as (_ & Hj & _).
  split.
  - unfold json_slice. rewrite indexOf_framed, lastIndexOf_framed by done.
    rewrite <- Z.add_assoc. symmetry. apply substring_framed; lia.
  - unfold no_object. rewrite indexOf_framed, lastIndexOf_framed by done.
    rewrite !elem_of_app. split; intros [?|[?|?]]; try tauto; right; right; lia.
Qed.

End SpanFacts.

Section ZodCompleteness.

Implicit Types (s : schema) (v r : jsvalue) (p : list path_item).

Lemma only_declared_atom s v :
  match v with VArr _ | VObj _ => False | _ => True end →
  only_declared_keys s v = true.
Proof.
  induction s as [| |options|expected|inner IH|inner IH|element IH|shape IH]
    using schema_rect_nested; intros Hv; try done.
  - by apply IH.
  - by apply IH.
  - by destruct v.
  - by destruct v.
Qed.

Lemma zparse_only_declared s :
  wf s = true → ∀ p v r, zparse s p v = OK r → only_declared_keys s r = true.
Proof.
  induction s as [| |options|expected|inner IH|inner IH|element IH|shape IH]
    using schema_rect_nested; intros Hwf p v r Hr; try done.
  - destruct v; simpl in Hr; try (injection Hr as <-; by apply only_declared_atom);
      by eapply (IH Hwf).
  - destruct v; simpl in Hr; try (injection Hr as <-; by apply only_declared_atom);
      by eapply (IH Hwf).
  - destruct v as [| | | | |items|]; simpl in Hr; try done.
    apply mergeArray_ok in Hr as [Hok ->]. simpl.
    apply forallb_forall. intros x Hx. apply in_map_iff in Hx as (res & <- & Hres).
    apply list_elem_of_In, list_elem_of_lookup in Hres as (n & Hn).
    rewrite list_lookup_imap in Hn.
    destruct (items !! n) as [y|] eqn:Hy; [|done]. injection Hn as Hn.
    destruct res as [r'|L].
    + simpl. eapply (IH Hwf). exact Hn.
    + assert (is_ok (INVALID L) = true); [|done].
      eapply forallb_elem_true; [exact Hok|].
      apply list_elem_of_lookup. exists n. by rewrite list_lookup_imap, Hy, <- Hn.
  - destruct v as [| | | | | |props]; simpl in Hr; try done.
    apply mergeObject_ok in Hr as [Hok ->]. simpl in *.
    apply andb_prop in Hwf as [Hnd Hwf]. apply bool_decide_eq_true in Hnd.
    set (g := λ ks0 : jsstring * schema,
           (ks0.1, has props ks0.1, zparse ks0.2 (p ++ [Key ks0.1]) (get props ks0.1))) in *.
    assert ((map g shape).*1.*1 = shape.*1) as Hkeys.
    { clear. induction shape as [|ks shape IHs]; simpl; [done|by f_equal]. }
    apply andb_true_intro. split.
    + apply bool_decide_eq_true. intros k Hk.
      apply elem_of_list_to_set. apply elem_of_dom in Hk as [x Hx].
      destruct (decide (k ∈ shape.*1)) as [|Hout]; [done|].
      rewrite fold_assign_other in Hx by (by rewrite Hkeys). by rewrite lookup_empty in Hx.
    + apply forallb_forall. intros ks Hks. apply list_elem_of_In in Hks.
      assert (g ks ∈ map g shape) as Hg by (apply list_elem_of_fmap; eauto).
      rewrite (fold_assign_get (map g shape) ∅ ks.1 (has props ks.1) (g ks).2);
        [|by rewrite Hkeys|exact Hg|apply lookup_empty].
      pose proof (forallb_elem_true _ _ _ Hok Hg) as Hres. simpl in Hres |- *.
      destruct (zparse ks.2 (p ++ [Key ks.1]) (get props ks.1)) as [r'|] eqn:E; [|done].
      rewrite Forall_forall in IH. eapply (IH ks Hks).
      * apply (forallb_elem_true _ _ ks Hwf Hks).
      * exact E.
Qed.

Lemma is_ok_mergeArray results : is_ok (mergeArray results) = forallb is_ok results.
Proof. unfold mergeArray. case_match eqn:E; by rewrite ?E. Qed.

Lemma is_ok_mergeObject (pairs : list pair) :
  is_ok (mergeObject pairs) = forallb (λ q : pair, is_ok q.2) pairs.
Proof.
  unfold mergeObject. case_match eqn:E; by rewrite ?E.
Qed.

Lemma zparse_accepts s : ∀ p v, is_ok (zparse s p v) = matches s v.
Proof.
  induction s as [| |options|expected|inner IH|inner IH|element IH|shape IH]
    using schema_rect_nested; intros p v.
  - by destruct v.
  - by destruct v.
  - destruct v; try done. simpl. by destruct (bool_decide _).
  - destruct v; try done. simpl. by destruct (bool_decide _).
  - destruct v; simpl; try done; apply IH.
  - destruct v; simpl; try done; apply IH.
  - destruct v as [| | | | |items|]; try done. simpl.
    rewrite is_ok_mergeArray.
    assert (∀ f : nat → jsvalue → parse_return,
               (∀ i x, is_ok (f i x) = matches element x) →
               forallb is_ok (imap f items) = forallb (matches element) items) as H.
    { induction items as [|x items IHi]; intros f Hf; [done|].
      simpl. rewrite Hf. f_equal. apply IHi. intros i y. apply Hf. }
    apply H. intros i x. apply IH.
  - destruct v as [| | | | | |props]; try done. simpl.
    rewrite is_ok_mergeObject.
    induction IH as [|ks shape Hks _ IHs]; [done|].
    simpl. by rewrite Hks, IHs.
Qed.

Lemma elem_of_concat_map {A} (f : A → list issue) (l : list A) i :
  i ∈ concat (map f l) → ∃ x, x ∈ l ∧ i ∈ f x.
Proof.
  induction l as [|y l IH]; simpl; [by intros ?%elem_of_nil|].
  intros [H|H]%elem_of_app.
  - exists y. split; [left|done].
  - destruct (IH H) as (x & Hx & Hi). exists x. split; [by right|done].
Qed.

Lemma zparse_issues_are_violations s :
  ∀ p v L, zparse s p v = INVALID L → ∀ i, i ∈ L → violation s p v i.
Proof.
  induction s as [| |options|expected|inner IH|inner IH|element IH|shape IH]
    using schema_rect_nested; intros p v L HL i Hi.
  - destruct v; simpl in HL; try done; injection HL as <-;
      apply list_elem_of_singleton in Hi as ->; by apply not_a_string.
  - destruct v; simpl in HL; try done; injection HL as <-;
      apply list_elem_of_singleton in Hi as ->; by apply not_a_boolean.
  - destruct v as [| | | |x| |]; simpl in HL;
      try (injection HL as <-; apply list_elem_of_singleton in Hi as ->;
           by apply enum_not_a_string).
    case_bool_decide as Hx; [done|]. injection HL as <-.
    apply list_elem_of_singleton in Hi as ->. by apply enum_outside_set.
  - destruct v as [| | | |x| |]; simpl in HL;
      try (injection HL as <-; apply list_elem_of_singleton in Hi as ->;
           by apply literal_differs).
    case_bool_decide as Hx; [done|]. injection HL as <-.
    apply list_elem_of_singleton in Hi as ->. apply literal_differs. congruence.
  - destruct v; simpl in HL; try done; apply under_nullable; try done; eauto.
  - destruct v; simpl in HL; try done; apply under_optional; try done; eauto.
  - destruct v as [| | | | |items|]; simpl in HL;
      try (injection HL as <-; apply list_elem_of_singleton in Hi as ->;
           by apply not_an_array).
    unfold mergeArray in HL. case_match; [done|]. injection HL as <-.
    apply elem_of_concat_map in Hi as (res & Hres & Hi).
    apply list_elem_of_lookup in Hres as (n & Hn).
    rewrite list_lookup_imap in Hn.
    destruct (items !! n) as [x|] eqn:Hx; [|done]. injection Hn as Hn.
    destruct res as [r'|L']; [by apply elem_of_nil in Hi|].
    apply (in_item element p items n x i Hx). by eapply IH.
  - destruct v as [| | | | | |props]; simpl in HL;
      try (injection HL as <-; apply list_elem_of_singleton in Hi as ->;
           by apply not_an_object).
    unfold mergeObject in HL. case_match; [done|]. injection HL as <-.
    apply elem_of_concat_map in Hi as (q & Hq & Hi).
    apply list_elem_of_fmap in Hq as (ks & -> & Hks). simpl in Hi.
    destruct (zparse ks.2 (p ++ [Key ks.1]) (get props ks.1)) as [r'|L'] eqn:E;
      [by apply elem_of_nil in Hi|].
    rewrite Forall_forall in IH.
    apply (in_field shape p props ks.1 ks.2 i); [by destruct ks|].
    by eapply (IH ks Hks).
Qed.

End ZodCompleteness.

Section ExtractionFacts.

Implicit Types (f : extractor) (generateContent : jsstring → outcome)
  (prompt text : jsstring).

Lemma seen_keeps_span f text :
  ¬ no_object text →
  json_slice (text_seen f text) = json_slice text ∧ ¬ no_object (text_seen f text).
Proof.
  intros Hobj.
  assert (lbrace ∈ text) as Hl
    by (destruct (decide (lbrace ∈ text)); [done|exfalso; apply Hobj; by left]).
  assert (rbrace ∈ text) as Hr
    by (destruct (decide (rbrace ∈ text)); [done|exfalso; apply Hobj; right; by left]).
  destruct (trim_keeps_span text Hl Hr) as [Hs Hn].
  destruct f; cbn [text_seen]; split; try done; by rewrite Hn.
Qed.

Lemma run_span f generateContent prompt r text :
  generateContent prompt = Resolves r →
  text_of r = Some text →
  ¬ no_object text →
  result (run f generateContent prompt) = settled_result f (json_slice text)
  ∧ call_JSON_parse (json_slice text) ∈ trace (run f generateContent prompt).
Proof.
  intros Hg Ht Hobj.
  destruct (seen_keeps_span f text Hobj) as [Hs Hseen].
  rewrite (run_text generateContent f prompt r text Hg Ht)
    by (intros _; by apply (object_span_nonempty f)).
  rewrite locate_object, Hs by done. unfold settled_result.
  destruct (JSON_parse (json_slice text)) as [payload|].
  - destruct (Zod.parse (schema_of f) payload); cbn [settle result trace fst snd];
      (split; [done|]); rewrite !elem_of_app, !elem_of_cons; auto.
  - cbn [settle result trace fst snd]. split; [done|].
    rewrite !elem_of_app, !elem_of_cons. auto.
Qed.

Lemma wrapped_has_object pre mid post :
  lbrace ∉ pre → rbrace ∉ post →
  ¬ no_object (pre ++ (lbrace :: mid ++ [rbrace]) ++ post).
Proof.
  intros Hpre Hpost.
  assert (lbrace ∈ lbrace :: mid ++ [rbrace]) as Hl by left.
  assert (rbrace ∈ lbrace :: mid ++ [rbrace]) as Hr
    by (right; apply elem_of_app; right; left).
  pose proof (indexOf_framed pre _ post lbrace Hpre Hl) as Qi.
  pose proof (lastIndexOf_framed_right pre _ post rbrace Hpost Hr) as Qj.
  rewrite indexOf_head in Qi.
  change (lastIndexOf (lbrace :: mid ++ [rbrace]) rbrace)
    with (lastIndexOf ((lbrace :: mid) ++ [rbrace]) rbrace) in Qj.
  rewrite lastIndexOf_snoc in Qj. cbn [length] in Qj.
  unfold no_object. unfold jsstring, code_unit in *. rewrite Qi, Qj.
  rewrite !elem_of_app. intros [H|[H|H]]; [tauto|tauto|lia].
Qed.

(** X1.  Prose around an object does not matter: when the text is some
    prose without an opening brace, then an opening brace, anything, a
    closing brace, then prose without a closing brace, the parser is
    called with exactly the part from brace to brace, and the function
    returns what that part alone decides. *)
Theorem prose_around_object_ignored f generateContent prompt r pre mid post :
  generateContent prompt = Resolves r →
  text_of r = Some (pre ++ (lbrace :: mid ++ [rbrace]) ++ post) →
  lbrace ∉ pre → rbrace ∉ post →
  result (run f generateContent prompt) = settled_result f (lbrace :: mid ++ [rbrace])
  ∧ call_JSON_parse (lbrace :: mid ++ [rbrace]) ∈ trace (run f generateContent prompt).
Proof.
  intros Hg Ht Hpre Hpost.
  destruct (run_span f generateContent prompt r _ Hg Ht
              (wrapped_has_object pre mid post Hpre Hpost)) as [Hres Hcall].
  pose proof (json_slice_wrapped pre mid post Hpre Hpost) as E.
  unfold jsstring, code_unit in *. rewrite E in Hres, Hcall. done.
Qed.

(** X2.  [extractCook] and [extractStructuredData] do not see white space
    around the text: two answers that differ only by leading and trailing
    white space give the same trace and the same result. *)
Theorem surrounding_white_space_ignored f generateContent generateContent'
        prompt r r' pre text post :
  empty_is_no_text f = false →
  white pre → white post →
  generateContent prompt = Resolves r →
  generateContent' prompt = Resolves r' →
  text_of r = Some (pre ++ text ++ post) →
  text_of r' = Some text →
  run f generateContent prompt = run f generateContent' prompt.
Proof.
  intros Hf Hpre Hpost Hg Hg' Ht Ht'.
  rewrite (run_text generateContent f prompt r _ Hg Ht) by (by rewrite Hf).
  rewrite (run_text generateContent' f prompt r' _ Hg' Ht') by (by rewrite Hf).
  destruct f; try done; cbn [text_seen prelude schema_of]; by rewrite trim_white.
Qed.

(** X3.  When the call to the endpoint is rejected, the function traces
    the call and the message of its [catch] block with the error, and
    returns [null]; nothing is parsed. *)
Theorem transport_failure_handled f generateContent prompt message :
  generateContent prompt = Rejects message →
  run f generateContent prompt
  = (call_generateContent prompt :: caught f (TransportError message), inr VNull)
  ∧ Forall (λ ev, is_parse_call ev = false) (trace (run f generateContent prompt)).
Proof.
  intros Hg. rewrite (run_rejected generateContent f prompt message Hg).
  split; [done|]. destruct f; by repeat constructor.
Qed.

(** X4.  When the brace span is not JSON, the function calls the parser
    once, traces the parse failure with the span, and returns [null]; the
    [catch] block is not entered. *)
Theorem malformed_span_reported f generateContent prompt r text :
  generateContent prompt = Resolves r →
  text_of r = Some text →
  ¬ no_object text →
  JSON_parse (json_slice text) = None →
  run f generateContent prompt
  = (prelude f prompt text
       ++ [call_JSON_parse (json_slice text); malformed_error (json_slice text)],
     inr VNull).
Proof.
  intros Hg Ht Hobj Hp.
  destruct (seen_keeps_span f text Hobj) as [Hs Hseen].
  rewrite (run_text generateContent f prompt r text Hg Ht)
    by (intros _; by apply (object_span_nonempty f)).
  by rewrite locate_object, Hs, Hp by done.
Qed.

(** X5.  When the response has no text where the scripts read it,
    [checkCompliance] and [generateUI] report that the model returned no
    text; [extractCook] and [extractStructuredData] report an unexpected
    format when a level of the response is missing, and run into a type
    error, handled by their [catch] block, when only the text of the part
    is missing.  All return [null]. *)
Theorem missing_text_reported f generateContent prompt r :
  generateContent prompt = Resolves r →
  text_of r = None →
  run f generateContent prompt
  = (call_generateContent prompt :: missing_text_report f r, inr VNull).
Proof.
  intros Hg Ht.
  destruct f; simpl;
    unfold checkCompliance, extractCook, generateUI, extractStructuredData,
      checked_trimmed_text, await_response;
    rewrite Hg; simpl; rewrite ?Ht; try reflexivity.
  all: destruct (first_part r) as [part|] eqn:Hp; simpl; [|reflexivity].
  all: destruct (Effects.text part) as [t|] eqn:Hpt; simpl; [|reflexivity].
  all: exfalso; revert Ht Hp Hpt; unfold text_of, first_part.
  all: destruct r as [[cs]|]; simpl; [|done].
  all: destruct cs as [[|[ct] ?]|]; simpl; try done.
  all: destruct ct as [[ps]|]; simpl; try done.
  all: destruct ps as [[|q ?]|]; simpl; try done.
  all: intros ? [= ->]; congruence.
Qed.

Lemma count_events_app p (l1 l2 : list event) :
  count_events p (l1 ++ l2) = (count_events p l1 + count_events p l2)%nat.
Proof. unfold count_events. by rewrite filter_app, length_app. Qed.

Lemma count_events_cons p ev (l : list event) :
  count_events p (ev :: l) = ((if p ev then 1 else 0) + count_events p l)%nat.
Proof.
  unfold count_events. rewrite filter_cons.
  destruct (p ev); case_decide; try done; cbn [length]; lia.
Qed.

Lemma count_events_nil p : count_events p [] = 0%nat.
Proof. done. Qed.

Lemma count_events_none p (l : list event) :
  Forall (λ ev, p ev = false) l → count_events p l = 0%nat.
Proof.
  unfold count_events. induction 1 as [|ev l Hev _ IH]; [done|].
  rewrite filter_cons_False by congruence. exact IH.
Qed.

Lemma caught_only_errors f error :
  Forall (λ ev, is_error ev = true) (caught f error).
Proof. destruct f, error; by repeat constructor. Qed.

Lemma errors_are_no_calls (l : list event) :
  Forall (λ ev, is_error ev = true) l →
  count_events is_endpoint_call l = 0%nat
  ∧ count_events is_parse_call l = 0%nat
  ∧ count_events is_file_write l = 0%nat.
Proof.
  intros H. repeat split; apply count_events_none;
    (eapply Forall_impl; [exact H|]); by intros [].
Qed.

Lemma prelude_counts f prompt text :
  count_events is_endpoint_call (prelude f prompt text) = 1%nat
  ∧ count_events is_parse_call (prelude f prompt text) = 0%nat
  ∧ count_events is_file_write (prelude f prompt text) = 0%nat.
Proof.
  destruct f; cbn [prelude]; rewrite !count_events_cons, !count_events_nil; done.
Qed.

(** X6.  One call of an extraction function calls the endpoint exactly
    once (there is no retry), calls the parser at most once, and writes no
    file. *)
Theorem one_endpoint_call f generateContent prompt :
  count_events is_endpoint_call (trace (run f generateContent prompt)) = 1%nat
  ∧ (count_events is_parse_call (trace (run f generateContent prompt)) <= 1)%nat
  ∧ count_events is_file_write (trace (run f generateContent prompt)) = 0%nat.
Proof.
  destruct (generateContent prompt) as [message|r] eqn:Hg.
  { rewrite (run_rejected generateContent f prompt message Hg). cbn [trace fst].
    destruct (errors_are_no_calls _ (caught_only_errors f (TransportError message)))
      as (H1 & H2 & H3).
    change (?x :: ?l) with ([x] ++ l). rewrite !count_events_app, H1, H2, H3. rewrite ?count_events_cons, ?count_events_nil; repeat split; cbn; lia. }
  assert (∀ ev, is_error ev = true →
            count_events is_endpoint_call [call_generateContent prompt; ev] = 1%nat
            ∧ (count_events is_parse_call [call_generateContent prompt; ev] <= 1)%nat
            ∧ count_events is_file_write [call_generateContent prompt; ev] = 0%nat)
    as Hshort
    by (intros [] ?; try done; rewrite !count_events_cons, !count_events_nil;
        repeat split; cbn; lia).
  destruct (text_of r) as [text|] eqn:Ht; cycle 1.
  { destruct (run_no_text generateContent f prompt r Hg) as (ev & He & ->); [by left|].
    by apply Hshort. }
  destruct (decide (empty_is_no_text f = true ∧ text = [])) as [[Hf ->]|Hne].
  { destruct (run_no_text generateContent f prompt r Hg) as (ev & He & ->); [by right|].
    by apply Hshort. }
  rewrite (run_text generateContent f prompt r text Hg Ht) by (intros ? ->; by apply Hne).
  destruct (prelude_counts f prompt text) as (P1 & P2 & P3).
  destruct (no_object_dec (text_seen f text)) as [Hno|Hobj].
  { rewrite locate_no_object by done. cbn [settle trace fst].
    rewrite !count_events_app, P1, P2, P3. rewrite ?count_events_cons, ?count_events_nil; repeat split; cbn; lia. }
  rewrite locate_object by done.
  destruct (JSON_parse (json_slice (text_seen f text))) as [payload|].
  - destruct (Zod.parse (schema_of f) payload) as [v|issues]; cbn [settle trace fst].
    + rewrite !count_events_app, P1, P2, P3. rewrite ?count_events_cons, ?count_events_nil; repeat split; cbn; lia.
    + destruct (errors_are_no_calls _ (caught_only_errors f (ZodError issues)))
        as (H1 & H2 & H3).
      rewrite !count_events_app, P1, P2, P3, H1, H2, H3. rewrite ?count_events_cons, ?count_events_nil; repeat split; cbn; lia.
  - cbn [settle trace fst]. rewrite !count_events_app, P1, P2, P3. rewrite ?count_events_cons, ?count_events_nil; repeat split; cbn; lia.
Qed.

Lemma schema_of_wf f : wf (schema_of f) = true.
Proof. destruct f; vm_compute; reflexivity. Qed.

(** X7.  Whatever an extraction function returns, if it is not [null] it
    matches the schema of the function, carries only the keys the schema
    declares, and validates to itself. *)
Theorem returned_value_conforms f generateContent prompt v :
  result (run f generateContent prompt) = inr v → v ≠ VNull →
  matches (schema_of f) v = true
  ∧ only_declared_keys (schema_of f) v = true
  ∧ Zod.parse (schema_of f) v = OK v.
Proof.
  intros Hv Hne.
  destruct (run_returns f generateContent prompt)
    as (tr & v' & Hrun & [[-> _]|[_ Hs]]);
    rewrite Hrun in Hv; injection Hv as <-; [done|].
  destruct Hs as (r & text & payload & _ & _ & _ & _ & Hz).
  pose proof (zparse_matches _ (schema_of_wf f) _ _ _ Hz) as Hm.
  pose proof (zparse_only_declared _ (schema_of_wf f) _ _ _ Hz) as Hk.
  split; [done|]. split; [done|]. by apply zparse_same.
Qed.

(** X8.  A schema accepts exactly the values that match it, and when it
    rejects a value the issues it raises are exactly the violations of
    that value. *)
Theorem validation_characterized (s : schema) (v : jsvalue) :
  is_ok (Zod.parse s v) = matches s v
  ∧ (∀ issues, Zod.parse s v = INVALID issues →
       ∀ i, i ∈ issues ↔ violation s [] v i).
Proof.
  split; [apply zparse_accepts|].
  intros issues HL i. split.
  - by apply (zparse_issues_are_violations s [] v issues).
  - intros Hv. destruct (zparse_reports s [] v i Hv) as (L & E & Hi).
    unfold Zod.parse in HL. rewrite E in HL. by injection HL as <-.
Qed.

End ExtractionFacts.

(** * The scripts *)

Section ScriptFacts.

Implicit Types (f : extractor) (generateContent : jsstring → outcome)
  (prompt text : jsstring) (toLowerCase : jsstring → jsstring).

Lemma run_null_or_object f generateContent prompt :
  ∃ tr v, run f generateContent prompt = (tr, inr v)
          ∧ (v = VNull ∨ (∃ props, v = VObj props)
                          ∧ succeeds generateContent f prompt v).
Proof.
  destruct (run_returns f generateContent prompt) as (tr & v & Hrun & [[-> _]|[_ Hs]]).
  - exists tr, VNull. auto.
  - exists tr, v. split; [done|]. right. split; [|done].
    destruct Hs as (r & text & payload & _ & _ & _ & _ & Hz).
    destruct (schema_of_object f) as [shape Hshape]. rewrite Hshape in Hz.
    by apply parse_object_result in Hz.
Qed.

(** X9.  The compliance, recipe and guide scripts print the prompt, then
    what the function traces, then one last line: the failure text exactly
    when the function returned [null], and otherwise the success text with
    the returned value. *)
Theorem main_reports_outcome generateContent prompt :
  (∃ tr v, checkCompliance generateContent prompt = (tr, inr v)
           ∧ main_compliance generateContent prompt
             = (prompt_line prompt :: tr
                  ++ [final_line (js "Content compliance:")
                        (js "Failed to perform compliance check.") v], inr tt))
  ∧ (∃ tr v, extractCook generateContent prompt = (tr, inr v)
             ∧ main_cook generateContent prompt
               = (prompt_line prompt :: tr
                    ++ [final_line (js "Parsed recipe:")
                          (js "Failed to parse recipe details.") v], inr tt))
  ∧ (∃ tr v, extractStructuredData generateContent prompt = (tr, inr v)
             ∧ main_guide generateContent prompt
               = (prompt_line prompt :: tr
                    ++ [final_line (js "Parsed Everest climbing guide:")
                          (js "Failed to parse Everest climbing guide.") v], inr tt)).
Proof.
  split; [|split].
  - destruct (run_null_or_object CheckCompliance generateContent prompt)
      as (tr & v & Hrun & Hv). cbn [run] in Hrun.
    exists tr, v. split; [done|]. unfold main_compliance. rewrite Hrun.
    destruct Hv as [->|[[props ->] _]]; reflexivity.
  - destruct (run_null_or_object ExtractCook generateContent prompt)
      as (tr & v & Hrun & Hv). cbn [run] in Hrun.
    exists tr, v. split; [done|]. unfold main_cook. rewrite Hrun.
    destruct Hv as [->|[[props ->] _]]; reflexivity.
  - destruct (run_null_or_object ExtractStructuredData generateContent prompt)
      as (tr & v & Hrun & Hv). cbn [run] in Hrun.
    exists tr, v. split; [done|]. unfold main_guide. rewrite Hrun.
    destruct Hv as [->|[[props ->] _]]; reflexivity.
Qed.

(** X10.  The UI script calls [fs.writeFileSync] only after [generateUI]
    returned a form: then it renders that form without a warning, prints
    the value and the markup, and calls [fs.writeFileSync] once, with
    [generated-cv-form.html] and the document built around the markup.
    When the write succeeds it prints that the file was saved and [main]
    returns; when the write throws, nothing more is printed and [main]
    ends with that error, which nothing catches.  When [generateUI]
    returned [null] the script prints the failure text, writes nothing,
    and [main] returns. *)
Theorem ui_file_written_on_success generateContent toLowerCase writeFileSync prompt :
  ∃ tr v,
    generateUI generateContent prompt = (tr, inr v)
    ∧ (v = VNull
       ∧ main_ui generateContent toLowerCase writeFileSync prompt
         = (prompt_line prompt :: tr
              ++ [console_log [DText (js "Failed to generate UI.")]], inr tt)
       ∨ ∃ ui,
           form_of_value v = Some ui
           ∧ main_ui generateContent toLowerCase writeFileSync prompt
             = (prompt_line prompt :: tr
                  ++ ui_report v (concat (pieces toLowerCase ui))
                       (ui_written writeFileSync (concat (pieces toLowerCase ui))),
                ui_result (ui_written writeFileSync (concat (pieces toLowerCase ui))))).
Proof.
  destruct (run_null_or_object GenerateUI generateContent prompt)
    as (tr & v & Hrun & Hv). cbn [run] in Hrun.
  exists tr, v. split; [done|]. unfold main_ui. rewrite Hrun.
  destruct Hv as [->|[[props ->] Hs]]; [left; split; reflexivity|].
  right. destruct (validated_form_decodes _ _ _ Hs) as (ui & Hui & Hrec).
  exists ui. split; [done|].
  cbn [is_truthy mbind M_bind bind emit]. rewrite Hui.
  unfold convertToHTML. rewrite after_elements_foldl, foldl_console by done.
  unfold write_file, ui_written, ui_report, ui_result.
  cbn [mbind M_bind bind emit].
  destruct (writeFileSync _ _); reflexivity.
Qed.

(** A write that throws ends the UI script with status 1, the call of
    [fs.writeFileSync] with the whole document being the last thing it
    did. *)
Example failing_write_exits_one :
  (script (Some (js "key"))
     (main_ui (reply empty_form_text) ascii_lower read_only [])).2 = 1
  ∧ last (script (Some (js "key"))
            (main_ui (reply empty_form_text) ascii_lower read_only [])).1
    = Some (fs_writeFileSync (js "generated-cv-form.html")
              (htmlDocument (form_open ++ form_close))).
Proof. split; vm_compute; reflexivity. Qed.

End ScriptFacts.

(** * Further properties of the renderer *)

Section MarkupFacts.

Variable toLowerCase : jsstring → jsstring.

Implicit Types (e : element) (es : list element) (st : state).

Local Abbreviation step := (render_element toLowerCase).
Local Abbreviation stream := (RenderSpec.stream toLowerCase).
Local Abbreviation block := (RenderSpec.block toLowerCase).

Lemma foldl_warnings st es :
  console (foldl step st es) = console st ++ unrecognized_warnings es.
Proof.
  unfold unrecognized_warnings.
  revert st. induction es as [|e es IH]; intros st; [by rewrite app_nil_r|].
  cbn [foldl]. rewrite IH. destruct st as [h b c].
  destruct (recognized e) eqn:Hr.
  - rewrite filter_cons_False by congruence.
    destruct (is_list_item e) eqn:Hi.
    + by rewrite step_list_item.
    + by rewrite step_block.
  - rewrite filter_cons_True by done. rewrite step_unrecognized by done.
    cbn [console map]. by rewrite <- app_assoc.
Qed.

(** X11.  The console output of the renderer is one warning for each
    element of unrecognized kind, in the order of the elements, and
    nothing else. *)
Theorem warnings_listed ui :
  trace (convertToHTML toLowerCase ui) = unrecognized_warnings (elements_list ui).
Proof.
  unfold convertToHTML, trace. cbn [fst].
  by rewrite after_elements_foldl, foldl_warnings.
Qed.

(** X12.  A form without an element of recognized kind (in particular one
    without elements) renders as the empty form. *)
Theorem nothing_recognized_empty_form ui :
  Forall (λ e, recognized e = false) (elements_list ui) →
  result (convertToHTML toLowerCase ui) = inr (form_open ++ form_close).
Proof.
  intros Hes. unfold convertToHTML, result. cbn [snd].
  rewrite pieces_grouped.
  assert (filter (λ e, recognized e = true) (elements_list ui) = []) as ->.
  { induction Hes as [|e es He _ IH]; [done|].
    rewrite filter_cons_False by congruence. exact IH. }
  reflexivity.
Qed.

Local Ltac plainly :=
  unfold plain, li_open;
  repeat split;
  try (intros Heq; unfold ul_open, ul_close, nl, dq in Heq; cbn in Heq; discriminate Heq);
  try (cbn; reflexivity).

Lemma append_all (P : jsstring → Prop) st x :
  Forall P (html st) → P x → Forall P (html (append st x)).
Proof. intros H Hx. unfold append. cbn [html]. apply Forall_app. auto. Qed.

Lemma append_if_all (P : jsstring → Prop) (t : bool) st x :
  Forall P (html st) → P x → Forall P (html (append_if t st x)).
Proof. destruct t; [apply append_all|done]. Qed.

Lemma block_plain e : is_list_item e = false → Forall plain (block e).
Proof.
  intros Hi. unfold RenderSpec.block.
  destruct (kind_cases toLowerCase e) as [H1 _ _|H1 H2 _ _| |H1 H2 H3 H4 _|H1 H2 H3 H4 _];
    try congruence;
    unfold render_element, render_input; unfold is_list_item in *;
    rewrite ?H1, ?H2, ?H3, ?H4; cbn [closeList inList].
  - apply append_all; [by constructor|plainly].
  - apply append_all; [|plainly].
    destruct (jseqb (type e) (js "textarea"));
      repeat (first [apply append_all | apply append_if_all]; [|plainly]);
      by constructor.
  - repeat (first [apply append_all | apply append_if_all]; [|plainly]).
    by constructor.
  - by constructor.
Qed.

Lemma nesting_plain l rest :
  Forall plain l → nesting false (l ++ rest) = nesting false rest.
Proof.
  induction 1 as [|x l (Ho & Hc & Hl) _ IH]; [done|].
  cbn [app nesting]. unfold jseqb.
  by rewrite !bool_decide_eq_false_2, Hl by done.
Qed.

Lemma startsWith_app (p s : jsstring) : startsWith (p ++ s) p = true.
Proof.
  induction p as [|x p IH]; [by destruct s|].
  cbn [app startsWith]. by rewrite N.eqb_refl, IH.
Qed.

Lemma nesting_item inside e rest :
  nesting inside (item e :: rest) = if inside then nesting true rest else None.
Proof.
  destruct (item_no_list_tag e) as [Ho Hc].
  cbn [nesting]. unfold jseqb. rewrite !bool_decide_eq_false_2 by done.
  by assert (startsWith (item e) li_open = true) as -> by apply startsWith_app.
Qed.

Lemma stream_nesting es :
  ∀ b rest, nesting b (stream b es ++ rest) = nesting false rest.
Proof.
  induction es as [|e es IH]; intros b rest.
  - rewrite stream_nil. by destruct b.
  - destruct (recognized e) eqn:Hr; [|by rewrite stream_unrecognized].
    destruct (is_list_item e) eqn:Hi.
    + rewrite stream_list_item by done.
      destruct b; cbn [app]; rewrite ?app_nil_l.
      * rewrite nesting_item. apply IH.
      * change (nesting false (ul_open :: ?l)) with (nesting true l).
        rewrite nesting_item. apply IH.
    + rewrite stream_block by done. rewrite <- !app_assoc.
      destruct b; cbn [app].
      * change (nesting true (ul_close :: ?l)) with (nesting false l).
        rewrite nesting_plain by (by apply block_plain). apply IH.
      * rewrite nesting_plain by (by apply block_plain). apply IH.
Qed.

(** X13.  In the markup, lists are never nested and never closed without
    being open, every list item stands inside a list, every other piece
    stands outside a list, and no list is open at the end. *)
Theorem lists_well_nested ui : nesting false (pieces toLowerCase ui) = Some false.
Proof.
  rewrite pieces_stream. cbn [app].
  change (nesting false (form_open :: ?l)) with (nesting false l).
  by rewrite stream_nesting.
Qed.

Lemma elem_of_append st x y :
  x ∈ html (append st y) ↔ x ∈ html st ∨ x = y.
Proof. unfold append. cbn [html]. by rewrite elem_of_app, list_elem_of_singleton. Qed.

Lemma elem_of_append_if (t : bool) st x y :
  x ∈ html (append_if t st y) ↔ x ∈ html st ∨ (t = true ∧ x = y).
Proof.
  destruct t; cbn [append_if]; [rewrite elem_of_append|]; intuition congruence.
Qed.

Lemma block_input e :
  is_input_like (type e) = true →
  block e = html (render_input toLowerCase (State [] false []) e).
Proof. intros Hin. unfold RenderSpec.block. by rewrite step_input_like. Qed.

(** X14.  In the block of an input-like element the [required] attribute
    appears exactly when [required] is [true]; and without a label the
    block has neither a label tag nor an [id] attribute, whether or not
    the element has a name. *)
Theorem optional_attributes e :
  is_input_like (type e) = true →
  (js " required" ∈ block e ↔ required e = Some true)
  ∧ (truthy (label e) = false →
     Forall (λ x, startsWith x (js " id=") = false
                  ∧ startsWith x (js "    <label") = false) (block e)).
Proof.
  intros Hin. rewrite block_input by done. unfold render_input. split.
  - cbn [closeList inList].
    destruct (jseqb (type e) (js "textarea"));
      repeat (rewrite elem_of_append || rewrite elem_of_append_if); cbn [html];
      rewrite elem_of_nil, bool_decide_eq_true;
      (split; [|tauto]);
      intros H; unfold dq, nl in H;
      repeat match type of H with
        | _ ∨ _ => destruct H as [H|H]
        | _ ∧ _ => destruct H as [? H]
        end; try done; try (cbn in H; discriminate H).
  - intros Hl. rewrite Hl. cbn [closeList inList append_if].
    assert (∀ l : jsstring, startsWith (js "    <input type=" ++ l) (js " id=") = false
                            ∧ startsWith (js "    <input type=" ++ l) (js "    <label") = false)
      as Hinput by (intros l; split; reflexivity).
    destruct (jseqb (type e) (js "textarea"));
      repeat (first [apply append_all | apply append_if_all];
              [|first [apply Hinput | split; reflexivity]]);
      by constructor.
Qed.

End MarkupFacts.

(** * Spans of spans, the two readings of a response, and instances *)

Section Instances.

Lemma span_shape text :
  ¬ no_object text → ∃ mid, json_slice text = lbrace :: mid ++ [rbrace].
Proof.
  intros Hobj.
  destruct (json_slice_inclusive text Hobj) as ((before & after & E & Hb & Ha) & Hh & Hl).
  assert (indexOf text lbrace < lastIndexOf text rbrace) as Hlt.
  { destruct (Z.lt_ge_cases (indexOf text lbrace) (lastIndexOf text rbrace)); [done|].
    exfalso. apply Hobj. right. right. lia. }
  rewrite length_app in Ha.
  destruct (json_slice text) as [|y tl]; [done|].
  cbn [head] in Hh. injection Hh as ->.
  destruct tl as [|z tl]; [cbn [length] in Ha; lia|].
  rewrite last_cons_cons in Hl. apply last_Some in Hl as [mid ->]. by exists mid.
Qed.

(** X15.  Extraction is idempotent: the span of a span is the span. *)
Theorem span_of_span text :
  ¬ no_object text →
  json_slice (json_slice text) = json_slice text ∧ ¬ no_object (json_slice text).
Proof.
  intros Hobj. destruct (span_shape text Hobj) as [mid E].
  unfold jsstring, code_unit in *. rewrite E.
  pose proof (json_slice_wrapped [] mid [] (not_elem_of_nil _) (not_elem_of_nil _)) as Hs.
  pose proof (wrapped_has_object [] mid [] (not_elem_of_nil _) (not_elem_of_nil _)) as Hn.
  cbn [app] in Hs, Hn. rewrite app_nil_r in Hs, Hn. done.
Qed.

Lemma span_of_span_witness :
  json_slice (json_slice verdict_text) = json_slice verdict_text
  ∧ ¬ no_object (json_slice verdict_text).
Proof.
  apply span_of_span.
  intros H. apply guard_no_object in H. vm_compute in H. discriminate H.
Defined.

(** X16.  The two ways of reading the response agree: the optional chain of
    [checkCompliance] and [generateUI] finds a text exactly when the
    guard of [extractCook] and [extractStructuredData] lets the response
    through and its first part has a text, and it is the same text. *)
Theorem response_readings_agree (r : option response_t) :
  text_of r = first_part r ≫= Effects.text.
Proof.
  unfold text_of, first_part. destruct r as [[cs]|]; simpl; [|done].
  destruct cs as [[|[ct] ?]|]; simpl; try done.
  destruct ct as [[ps]|]; simpl; try done.
  by destruct ps as [[|part ?]|].
Qed.

Lemma prose_around_object_ignored_witness :
  result (run CheckCompliance (reply verdict_text) [])
  = settled_result CheckCompliance (lbrace :: verdict_inside ++ [rbrace])
  ∧ call_JSON_parse (lbrace :: verdict_inside ++ [rbrace])
    ∈ trace (run CheckCompliance (reply verdict_text) []).
Proof.
  apply (prose_around_object_ignored CheckCompliance (reply verdict_text) []
           (response_with verdict_text) (js "Sure! ") verdict_inside
           (js " Hope that helps.")).
  - reflexivity.
  - vm_compute. reflexivity.
  - apply indexOf_minus_one. vm_compute. reflexivity.
  - apply lastIndexOf_minus_one. vm_compute. reflexivity.
Defined.

Lemma surrounding_white_space_ignored_witness :
  run ExtractCook (reply (js "  " ++ js "{}" ++ js " ")) []
  = run ExtractCook (reply (js "{}")) [].
Proof.
  apply (surrounding_white_space_ignored ExtractCook
           (reply (js "  " ++ js "{}" ++ js " ")) (reply (js "{}")) []
           (response_with (js "  " ++ js "{}" ++ js " ")) (response_with (js "{}"))
           (js "  ") (js "{}") (js " ")).
  - reflexivity.
  - repeat constructor.
  - repeat constructor.
  - reflexivity.
  - reflexivity.
  - reflexivity.
  - reflexivity.
Defined.

Lemma transport_failure_handled_witness :
  run ExtractCook (λ _, Rejects (js "quota")) []
  = (call_generateContent [] :: caught ExtractCook (TransportError (js "quota")),
     inr VNull)
  ∧ Forall (λ ev, is_parse_call ev = false)
      (trace (run ExtractCook (λ _, Rejects (js "quota")) [])).
Proof.
  apply (transport_failure_handled ExtractCook (λ _, Rejects (js "quota")) [] (js "quota")).
  reflexivity.
Defined.

Lemma malformed_span_reported_witness :
  run GenerateUI (reply (js "{oops}")) []
  = (prelude GenerateUI [] (js "{oops}")
       ++ [call_JSON_parse (json_slice (js "{oops}"));
           malformed_error (json_slice (js "{oops}"))],
     inr VNull).
Proof.
  apply (malformed_span_reported GenerateUI (reply (js "{oops}")) []
           (response_with (js "{oops}")) (js "{oops}")).
  - reflexivity.
  - reflexivity.
  - intros H. apply guard_no_object in H. vm_compute in H. discriminate H.
  - vm_compute. reflexivity.
Defined.

Lemma missing_text_reported_witness :
  run ExtractStructuredData (λ _, Resolves None) []
  = (call_generateContent [] :: missing_text_report ExtractStructuredData None,
     inr VNull).
Proof.
  apply (missing_text_reported ExtractStructuredData (λ _, Resolves None) [] None).
  - reflexivity.
  - reflexivity.
Defined.

Lemma returned_value_conforms_witness :
  matches ContentCompliance verdict = true
  ∧ only_declared_keys ContentCompliance verdict = true
  ∧ Zod.parse ContentCompliance verdict = OK verdict.
Proof.
  apply (returned_value_conforms CheckCompliance (reply annotated_text) [] verdict).
  - vm_compute. reflexivity.
  - discriminate.
Defined.

Lemma validation_characterized_witness :
  is_ok (Zod.parse ContentCompliance spam_verdict)
  = matches ContentCompliance spam_verdict
  ∧ violation ContentCompliance [] spam_verdict
      (Issue (invalid_enum_value [js "violence"; js "sexual"; js "self_harm"] (js "spam"))
         [Key (js "category")]).
Proof.
  destruct (validation_characterized ContentCompliance spam_verdict) as [Hok H].
  split; [exact Hok|].
  apply (H [Issue (invalid_enum_value [js "violence"; js "sexual"; js "self_harm"]
                     (js "spam"))
              [Key (js "category")]]).
  - vm_compute. reflexivity.
  - apply list_elem_of_singleton. reflexivity.
Defined.

Lemma nothing_recognized_empty_form_witness :
  result (convertToHTML ascii_lower (Form (js "cv-form") None))
  = inr (form_open ++ form_close).
Proof.
  apply (nothing_recognized_empty_form ascii_lower (Form (js "cv-form") None)).
  simpl. constructor.
Defined.

Lemma optional_attributes_witness :
  (js " required" ∈ RenderSpec.block ascii_lower email_field
   ↔ required email_field = Some true)
  ∧ (truthy (label email_field) = false →
     Forall (λ x, startsWith x (js " id=") = false
                  ∧ startsWith x (js "    <label") = false)
       (RenderSpec.block ascii_lower email_field)).
Proof.
  apply (optional_attributes ascii_lower email_field).
  vm_compute. reflexivity.
Defined.

End Instances.
